(** * Food identification and resolution engine of the protein tracker

    A shallow embedding of the search, merge, label-resolution and
    serving-scaling code of the application:

    - [src/services/nutritionApi.js]: [searchFoods], [transformProduct],
      [COMMON_FOODS], [searchCommonFoods], [searchAllFoods];
    - [src/services/foodRecognition.js]: [recognizeFood], [mapToFoodItem],
      [fuzzyMatchFoods];
    - [src/utils/constants.js]: [RECOGNITION_CONFIG], [FOOD_CLASS_MAPPINGS];
    - the food search component: [calculateProtein], [handleSelectFood],
      [handleAdd];
    - further code of the same files and of their callers: the barcode
      lookup [getFoodByBarcode], the model singleton [loadModel], the centre
      crop of [preprocessImage], the storage service ([addFoodToMeal],
      [removeFoodFromMeal], [addRecentFood], [getProteinGoal],
      [setProteinGoal]), the derived values of [useFoodLog] and the goal
      setter's [handleSave].

    Conventions of the embedding.

    - A JavaScript number is the rational ([Q]) that is its exact value;
      [Math.round] is [floor (x + 1/2)].  The arithmetic whose value the
      services report, the one-decimal rounding of the normalizer and of the
      scaler, is computed as in binary64 (IEEE 754 double precision, round
      to nearest, ties to even): [fl] rounds a rational to the nearest
      double, [fmul] and [fdiv] are the product and the quotient of the
      doubles nearest to their operands, rounded.  The comparisons against
      thresholds, the percentage of a probability, the progress values and
      the protein totals are computed in exact arithmetic.  Infinity, NaN
      and the negative zero are not modelled: a result of magnitude
      [2 ^ 1024] or more is outside the model.
    - A JavaScript string is a [string] of bytes; [toLowerCase] and [trim]
      act on the ASCII letters and the ASCII white space.
    - An object property that may be missing is an [option]; [a || b] on such
      a property is [or_num]/[or_str] (0, the empty string and a missing
      property are falsy).
    - [try]/[catch] and rejected promises are a small error monad
      ([result]); [await] is sequencing in that monad. *)

From Stdlib Require Import Ascii String QArith Qround Qabs Qminmax Qpower Lqa.
From stdpp Require Import base decidable option list sets gmap strings pretty.

Local Open Scope string_scope.
Local Open Scope list_scope.

(** ** JavaScript numbers *)

Module Num.

Definition num := Q.

(** A number is truthy when it is not zero. *)
Definition truthy (x : num) : bool := negb (Qnum x =? 0)%Z.

(** [Math.round]: the nearest integer, halves towards plus infinity. *)
Definition Math_round (x : num) : Z := Qfloor (x + (1 # 2))%Q.

(** *** Binary64 arithmetic *)

(** The position of the leading bit of a positive rational [x]:
    [2 ^ Qlog2 x <= x < 2 ^ (Qlog2 x + 1)]. *)
Definition Qlog2 (x : Q) : Z :=
  let k := (Z.log2 (Qnum x) - Z.log2 (Zpos (Qden x)))%Z in
  if Qle_bool (2 ^ k)%Q x then k else (k - 1)%Z.

(** The nearest integer, ties to the even one. *)
Definition round_half_even (x : Q) : Z :=
  let f := Qfloor x in
  match (x - inject_Z f ?= 1 # 2)%Q with
  | Lt => f
  | Gt => (f + 1)%Z
  | Eq => if Z.even f then f else (f + 1)%Z
  end.

(** The exponent of the last place of a positive rational in binary64: a
    significand of 53 bits, and gradual underflow below [2 ^ -1022]. *)
Definition ulp_exponent (x : Q) : Z := Z.max (Qlog2 x - 52) (-1074).

Definition fl_pos (x : Q) : Q :=
  let e := ulp_exponent x in
  (inject_Z (round_half_even (x / 2 ^ e)) * 2 ^ e)%Q.

(** The double nearest to [x], as a rational in lowest terms: what a
    decimal literal denotes, and what an arithmetic operation returns for
    the exact result [x]. *)
Definition fl (x : Q) : Q :=
  let x := Qred x in
  match Qnum x with
  | Z0 => 0%Q
  | Zpos _ => Qred (fl_pos x)
  | Zneg _ => Qred (- fl_pos (- x))
  end.

(** [x * y] and [x / y] on numbers. *)
Definition fmul (x y : num) : num := fl (fl x * fl y)%Q.
Definition fdiv (x y : num) : num := fl (fl x / fl y)%Q.

(** The rational is the exact value of a double. *)
Definition is_double (x : num) : Prop := (fl x == x)%Q.

(** [Math.round(x * 10) / 10], the one-decimal rounding used throughout. *)
Definition round1 (x : num) : num := fdiv (inject_Z (Math_round (fmul x 10%Q))) 10%Q.

(** [a || b] where [a] is a numeric property that may be missing. *)
Definition or_num (a : option num) (b : num) : num :=
  match a with
  | Some x => if truthy x then x else b
  | None => b
  end.

(** A number with at most one decimal place: the quotient of an integer
    by 10. *)
Definition one_decimal (x : num) : Prop := ∃ z : Z, x = fdiv (inject_Z z) 10%Q.

End Num.
Export Num.

Arguments fl : simpl never.
Arguments fmul : simpl never.
Arguments fdiv : simpl never.
Arguments round1 : simpl never.

#[global] Instance Qlt_decision : RelDecision Qlt :=
  λ x y, decide (Qnum x * QDen y < Qnum y * QDen x)%Z.
#[global] Instance Qle_decision : RelDecision Qle :=
  λ x y, decide (Qnum x * QDen y ≤ Qnum y * QDen x)%Z.

(** ** JavaScript strings *)

Module Str.

Definition lower_ascii (c : ascii) : ascii :=
  let n := nat_of_ascii c in
  if (65 <=? n)%nat && (n <=? 90)%nat then ascii_of_nat (n + 32) else c.

Fixpoint toLowerCase (s : string) : string :=
  match s with
  | EmptyString => EmptyString
  | String c s' => String (lower_ascii c) (toLowerCase s')
  end.

(** [s.includes(sub)]: [sub] occurs in [s] as a contiguous substring. *)
Fixpoint includes (s sub : string) : bool :=
  String.prefix sub s ||
  match s with
  | EmptyString => false
  | String _ s' => includes s' sub
  end.

Definition is_space (c : ascii) : bool :=
  let n := nat_of_ascii c in
  ((9 <=? n)%nat && (n <=? 13)%nat) || (n =? 32)%nat.

Fixpoint trimStart (s : string) : string :=
  match s with
  | EmptyString => EmptyString
  | String c s' => if is_space c then trimStart s' else s
  end.

Fixpoint trimEnd (s : string) : string :=
  match s with
  | EmptyString => EmptyString
  | String c s' =>
      match trimEnd s' with
      | EmptyString => if is_space c then EmptyString else String c EmptyString
      | t => String c t
      end
  end.

Definition trim (s : string) : string := trimEnd (trimStart s).

(** [s.split(/[,/]/)]: the pieces between commas and slashes; never empty. *)
Fixpoint split_sep (s : string) : list string :=
  match s with
  | EmptyString => [EmptyString]
  | String c s' =>
      if (Ascii.eqb c "," || Ascii.eqb c "/")%char then EmptyString :: split_sep s'
      else match split_sep s' with
           | [] => [String c EmptyString]
           | w :: ws => String c w :: ws
           end
  end.

(** [a || b] where [a] is a string property that may be missing. *)
Definition or_str (a : option string) (b : string) : string :=
  match a with
  | Some EmptyString | None => b
  | Some s => s
  end.

End Str.
Export Str.

(** ** Results of fallible (throwing or rejecting) computations *)

Inductive error := NetworkError | ApiError (status : nat) | JsonError | ModelError.

Inductive result (A : Type) := Ok (a : A) | Throw (e : error).
Arguments Ok {A} a.
Arguments Throw {A} e.

#[global] Instance result_ret : MRet result := λ A a, Ok a.
#[global] Instance result_bind : MBind result := λ A B k m,
  match m with
  | Ok a => k a
  | Throw e => Throw e
  end.

(** [try { m } catch (error) { return h error }] *)
Definition try_catch {A} (m : result A) (h : error → A) : A :=
  match m with
  | Ok a => a
  | Throw e => h e
  end.

(** ** Data model *)

Inductive source_tag := openfoodfacts | common | recognition.

#[global] Instance source_tag_eq_dec : EqDecision source_tag.
Proof. solve_decision. Defined.

(** The food item objects built by the services.  [transformProduct] sets
    [brand], [proteinPerServing] and [image]; the recognition service sets
    [confidence] and [originalClass]; the entries of [COMMON_FOODS] carry no
    [id] until [searchCommonFoods] adds one. *)
Record foodItem := mkFoodItem {
  id : option string;
  name : string;
  brand : option string;
  protein : num;
  proteinPerServing : option num;
  servingSize : num;
  servingUnit : string;
  source : source_tag;
  image : option string;
  confidence : option num;
  originalClass : option string
}.

(** The raw product of the remote catalogue, restricted to the fields the
    service requests and reads. *)
Record nutrimentMap := mkNutriments {
  proteins_100g : option num;
  proteins : option num;
  serving_size : option num;
  proteins_serving : option num
}.

Record product := mkProduct {
  code : option string;
  product_name : option string;
  brands : option string;
  nutriments : option nutrimentMap;
  image_front_small_url : option string
}.

Definition empty_nutriments : nutrimentMap := mkNutriments None None None None.

(** ** nutritionApi.js *)

(** [transformProduct], lines 63-84. *)
Definition transformProduct (p : product) : foodItem :=
  let nutriments := default empty_nutriments (nutriments p) in
  let proteinPer100g := or_num (proteins_100g nutriments) (or_num (proteins nutriments) 0%Q) in
  let servingSize := or_num (serving_size nutriments) 100%Q in
  let proteinPerServing :=
    or_num (proteins_serving nutriments) (fdiv (fmul proteinPer100g servingSize) 100%Q) in
  {| id := code p;
     name := or_str (product_name p) "Unknown Product";
     brand := Some (or_str (brands p) "");
     protein := round1 proteinPer100g;
     proteinPerServing := Some (round1 proteinPerServing);
     servingSize := servingSize;
     servingUnit := "g";
     source := openfoodfacts;
     image := match image_front_small_url p with
              | Some EmptyString | None => None
              | Some u => Some u
              end;
     confidence := None;
     originalClass := None |}.

(** The deduplicating [filter] of [searchFoods], lines 44-49: the closure
    reads and updates the [seen] set while the array is traversed. *)
Fixpoint uniqueProducts_from (seen : gset (option string)) (allProducts : list product)
  : list product :=
  match allProducts with
  | [] => []
  | product :: rest =>
      if decide (code product ∈ seen) then uniqueProducts_from seen rest
      else product :: uniqueProducts_from ({[code product]} ∪ seen) rest
  end.

Definition uniqueProducts (allProducts : list product) : list product :=
  uniqueProducts_from ∅ allProducts.

(** Lines 42-51 of [searchFoods]: combine the two product arrays,
    deduplicate, normalise, and keep the items with positive protein. *)
Definition mergeProducts (dataProducts textProducts : list product) : list foodItem :=
  let allProducts := dataProducts ++ textProducts in
  filter (λ item, (0 < protein item)%Q) (transformProduct <$> uniqueProducts allProducts).

(** The remote catalogue as the service sees it: the two requests of
    [searchFoods] and what [fetch] gives for each.  A rejected [fetch]
    (network failure, timeout) is a [Throw]; [json] throws on a malformed
    body. *)
Inductive request :=
  | StructuredSearch (query : string)
  | TextSearch (query : string).

Record searchBody := mkBody { products : option (list product) }.

Record response := mkResponse {
  ok : bool;
  status : nat;
  json : result searchBody
}.

Definition fetcher := request → result response.

(** [searchFoods], lines 12-56.  The [page] and [pageSize] arguments only
    shape the two request URLs and are left out. *)
Definition searchFoods (fetch : fetcher) (query : string) : list foodItem :=
  try_catch
    (response ← fetch (StructuredSearch query);
     if negb (ok response) then Throw (ApiError (status response)) else
     data ← json response;
     textResponse ← fetch (TextSearch query);
     textData ← (if ok textResponse then json textResponse else Ok (mkBody (Some [])));
     mret (mergeProducts (default [] (products data)) (default [] (products textData))))
    (λ _, []).

Definition commonFood (n : string) (p s : num) (u : string) : foodItem :=
  {| id := None; name := n; brand := None; protein := p; proteinPerServing := None;
     servingSize := s; servingUnit := u; source := common; image := None;
     confidence := None; originalClass := None |}.

(** [COMMON_FOODS], lines 122-153. *)
Definition COMMON_FOODS : list foodItem := Eval cbv in
  [
    commonFood "Chicken Breast (cooked)" 31 100 "g";
    commonFood "Turkey Breast (cooked)" 30 100 "g";
    commonFood "Lean Beef (cooked)" 26 100 "g";
    commonFood "Salmon (cooked)" 25 100 "g";
    commonFood "Tuna (canned)" 26 100 "g";
    commonFood "Egg (whole)" 6 1 "egg";
    commonFood "Egg White" 3.6 1 "egg";
    commonFood "Greek Yogurt" 10 100 "g";
    commonFood "Cottage Cheese" 11 100 "g";
    commonFood "Milk (whole)" 3.2 100 "ml";
    commonFood "Whey Protein Powder" 25 30 "g";
    commonFood "Tofu (firm)" 8 100 "g";
    commonFood "Lentils (cooked)" 9 100 "g";
    commonFood "Black Beans (cooked)" 8.9 100 "g";
    commonFood "Chickpeas (cooked)" 8.9 100 "g";
    commonFood "Quinoa (cooked)" 4.4 100 "g";
    commonFood "Almonds" 21 100 "g";
    commonFood "Peanut Butter" 25 100 "g";
    commonFood "Cottage Cheese" 11 100 "g";
    commonFood "Shrimp (cooked)" 24 100 "g";
    commonFood "Tilapia (cooked)" 26 100 "g";
    commonFood "Ground Turkey (cooked)" 27 100 "g";
    commonFood "Ground Beef 90% (cooked)" 26 100 "g";
    commonFood "Protein Bar" 20 1 "bar";
    commonFood "Edamame (cooked)" 11 100 "g";
    commonFood "Tempeh" 19 100 "g";
    commonFood "Seitan" 25 100 "g";
    commonFood "Pumpkin Seeds" 19 100 "g";
    commonFood "Chia Seeds" 17 100 "g";
    commonFood "Hemp Seeds" 31 100 "g"
  ]%Q.

(** [{ ...food, id: i }] *)
Definition with_id (food : foodItem) (i : option string) : foodItem :=
  {| id := i; name := name food; brand := brand food; protein := protein food;
     proteinPerServing := proteinPerServing food;
     servingSize := servingSize food; servingUnit := servingUnit food;
     source := source food; image := image food;
     confidence := confidence food; originalClass := originalClass food |}.

(** [searchCommonFoods], lines 160-168: the index given to [map] is the
    position in the filtered array. *)
Definition searchCommonFoods (query : string) : list foodItem :=
  let lowerQuery := toLowerCase query in
  imap (λ index food, with_id food (Some ("common-" +:+ pretty index)))
       (filter (λ food, includes (toLowerCase (name food)) lowerQuery = true) COMMON_FOODS).

(** [commonResults.some(common => common.name.toLowerCase() ===
    apiFood.name.toLowerCase())], lines 192-194. *)
Definition isDuplicate (commonResults : list foodItem) (apiFood : foodItem) : bool :=
  existsb (λ common, String.eqb (toLowerCase (name common)) (toLowerCase (name apiFood)))
          commonResults.

(** [searchAllFoods], lines 175-201.  The remote search is the callback
    [searchFoods]; [combined] starts as a copy of [commonResults] and the
    [forEach] pushes onto it. *)
Definition searchAllFoods (searchFoods : string → result (list foodItem)) (query : string)
  : result (list foodItem) :=
  let commonResults := searchCommonFoods query in
  let apiResults := try_catch (searchFoods query) (λ _, []) in
  let combined :=
    fold_left (λ combined apiFood,
                 if negb (isDuplicate commonResults apiFood)
                 then combined ++ [apiFood] else combined)
              apiResults commonResults in
  mret combined.

(** The network that answers the structured search with [primary] and the
    free-text search with [secondary]. *)
Definition fetch_of (primary secondary : result response) : fetcher :=
  λ req, match req with
         | StructuredSearch _ => primary
         | TextSearch _ => secondary
         end.

(** [searchFoods] as the callback of [searchAllFoods]: an [async] function
    whose body is wrapped in [try]/[catch], so its promise always resolves. *)
Definition remoteSearch (fetch : fetcher) : string → result (list foodItem) :=
  λ query, Ok (searchFoods fetch query).

(** ** constants.js *)

Definition MIN_CONFIDENCE : num := 0.3%Q.
Definition MAX_RESULTS : nat := 3.

(** [FOOD_CLASS_MAPPINGS], lines 40-110, in the order of [Object.entries]. *)
Definition FOOD_CLASS_MAPPINGS : list (string * (string * num)) := Eval cbv in
  [
    ("banana", ("Banana", 1.1));
    ("pizza", ("Pizza", 12));
    ("hamburger", ("Hamburger", 17));
    ("hotdog", ("Hot Dog", 10));
    ("burrito", ("Burrito", 15));
    ("cheeseburger", ("Cheeseburger", 18));
    ("meat loaf", ("Meatloaf", 22));
    ("French loaf", ("Bread", 9));
    ("bagel", ("Bagel", 10));
    ("pretzel", ("Pretzel", 8));
    ("carbonara", ("Carbonara", 14));
    ("chicken", ("Chicken", 27));
    ("eggnog", ("Eggnog", 5));
    ("ice cream", ("Ice Cream", 3));
    ("cheese", ("Cheese", 25));
    ("eggs", ("Eggs", 13));
    ("breakfast", ("Breakfast Plate", 20));
    ("guacamole", ("Guacamole", 2));
    ("mixed vegetables", ("Mixed Vegetables", 3));
    ("salad", ("Salad", 2));
    ("steak", ("Steak", 26));
    ("fish", ("Fish", 22));
    ("salmon", ("Salmon", 25));
    ("shrimp", ("Shrimp", 24));
    ("lobster", ("Lobster", 24));
    ("crab", ("Crab", 19));
    ("sushi", ("Sushi", 7));
    ("taco", ("Taco", 12));
    ("sandwich", ("Sandwich", 15));
    ("pancake", ("Pancakes", 6));
    ("waffle", ("Waffle", 7));
    ("omelette", ("Omelette", 14));
    ("scrambled eggs", ("Scrambled Eggs", 13));
    ("bacon", ("Bacon", 37));
    ("sausage", ("Sausage", 18));
    ("yogurt", ("Yogurt", 10));
    ("cottage cheese", ("Cottage Cheese", 11));
    ("peanut butter", ("Peanut Butter", 25));
    ("almond", ("Almonds", 21));
    ("peanut", ("Peanuts", 26));
    ("walnut", ("Walnuts", 15));
    ("cashew", ("Cashews", 18));
    ("pumpkin seed", ("Pumpkin Seeds", 19));
    ("sunflower seed", ("Sunflower Seeds", 21));
    ("tofu", ("Tofu", 8));
    ("tempeh", ("Tempeh", 19));
    ("lentil", ("Lentils", 9));
    ("bean", ("Beans", 9));
    ("chickpea", ("Chickpeas", 9));
    ("quinoa", ("Quinoa", 4.4));
    ("rice", ("Rice", 2.7));
    ("pasta", ("Pasta", 5));
    ("noodle", ("Noodles", 5));
    ("soup", ("Soup", 6));
    ("stew", ("Stew", 15));
    ("curry", ("Curry", 12));
    ("dumpling", ("Dumplings", 8));
    ("spring roll", ("Spring Roll", 5));
    ("kebab", ("Kebab", 20));
    ("meatball", ("Meatballs", 18));
    ("pot roast", ("Pot Roast", 25));
    ("ribs", ("Ribs", 23));
    ("pork chop", ("Pork Chop", 25));
    ("lamb", ("Lamb", 25));
    ("venison", ("Venison", 26));
    ("turkey", ("Turkey", 29));
    ("duck", ("Duck", 19));
    ("goose", ("Goose", 25))
  ]%Q.

(** ** foodRecognition.js *)

Record prediction := mkPrediction {
  className : string;
  probability : num
}.

(** The loop of [mapToFoodItem], lines 93-106, over the remaining entries. *)
Fixpoint mapToFoodItem_entries (entries : list (string * (string * num)))
    (prediction : prediction) (lowered : string) : option foodItem :=
  match entries with
  | [] => None
  | (key, value) :: rest =>
      if includes lowered (toLowerCase key) then
        Some {| id := Some ("recognized-" +:+ key);
                name := fst value;
                brand := None;
                protein := snd value;
                proteinPerServing := None;
                servingSize := 100%Q;
                servingUnit := "g";
                source := recognition;
                image := None;
                confidence := Some (inject_Z (Math_round (probability prediction * 100)%Q));
                originalClass := Some (className prediction) |}
      else mapToFoodItem_entries rest prediction lowered
  end.

(** [mapToFoodItem], lines 89-109; [None] is [null]. *)
Definition mapToFoodItem (prediction : prediction) : option foodItem :=
  mapToFoodItem_entries FOOD_CLASS_MAPPINGS prediction (toLowerCase (className prediction)).

(** The keyword loop of [fuzzyMatchFoods], lines 128-142: the first keyword
    with a curated match contributes its best match, then the loop breaks. *)
Fixpoint fuzzyMatch_keywords (prediction : prediction) (keywords : list string)
  : list foodItem :=
  match keywords with
  | [] => []
  | keyword :: rest =>
      match searchCommonFoods keyword with
      | bestMatch :: _ =>
          [ {| id := id bestMatch; name := name bestMatch; brand := brand bestMatch;
               protein := protein bestMatch;
               proteinPerServing := proteinPerServing bestMatch;
               servingSize := servingSize bestMatch;
               servingUnit := servingUnit bestMatch;
               source := recognition;
               image := image bestMatch;
               confidence := Some (inject_Z (Math_round (probability prediction * 100)%Q));
               originalClass := Some (className prediction) |} ]
      | [] => fuzzyMatch_keywords prediction rest
      end
  end.

(** The prediction loop of [fuzzyMatchFoods], lines 119-143, threading the
    [results] array. *)
Fixpoint fuzzyMatch_loop (results : list foodItem) (predictions : list prediction)
  : list foodItem :=
  match predictions with
  | [] => results
  | prediction :: rest =>
      if decide (probability prediction < MIN_CONFIDENCE)%Q
      then fuzzyMatch_loop results rest
      else
        let className := toLowerCase (className prediction) in
        let keywords := trim <$> split_sep className in
        fuzzyMatch_loop (results ++ fuzzyMatch_keywords prediction keywords) rest
  end.

(** [fuzzyMatchFoods], lines 116-146. *)
Definition fuzzyMatchFoods (predictions : list prediction) : list foodItem :=
  take MAX_RESULTS (fuzzyMatch_loop [] predictions).

(** Lines 66-69 of [recognizeFood]: the directly mapped items. *)
Definition directResults (predictions : list prediction) : list foodItem :=
  omap mapToFoodItem
       (filter (λ pred, (MIN_CONFIDENCE <= probability pred)%Q) predictions).

(** Lines 65-77 of [recognizeFood]: from the classifier's predictions to the
    returned items. *)
Definition resolvePredictions (predictions : list prediction) : list foodItem :=
  let foodResults := directResults predictions in
  if (length foodResults =? 0)%nat && (0 <? length predictions)%nat
  then foodResults ++ fuzzyMatchFoods predictions
  else foodResults.

(** The loaded model: [classify(image, topk)] for the image at hand. *)
Definition classifier := nat → result (list prediction).

(** [recognizeFood], lines 58-82; a failure to load the model or to classify
    is thrown again. *)
Definition recognizeFood (loadModel : result classifier) : result (list foodItem) :=
  loadedModel ← loadModel;
  predictions ← loadedModel MAX_RESULTS;
  mret (resolvePredictions predictions).

(** ** The food search component *)

(** [calculateProtein], lines 461-465 of the component; [selectedFood] is
    [None] when nothing is selected. *)
Definition calculateProtein (selectedFood : option foodItem) (servingSize' : num) : num :=
  match selectedFood with
  | None => 0%Q
  | Some food =>
      let ratio := fdiv servingSize' (or_num (Some (servingSize food)) 100%Q) in
      round1 (fmul (protein food) ratio)
  end.

(** ** Specification vocabulary *)


(** A remote record survives the combiner when no curated match has the
    same name up to letter case. *)
Definition not_shadowed (commonResults : list foodItem) (apiFood : foodItem) : Prop :=
  Forall (λ common, toLowerCase (name common) ≠ toLowerCase (name apiFood)) commonResults.

#[global] Instance not_shadowed_dec commonResults apiFood :
  Decision (not_shadowed commonResults apiFood).
Proof. unfold not_shadowed. apply _. Defined.

(** The first curated entry, as [searchCommonFoods] returns it for a query
    that it is the first to match. *)
Definition curated_chicken_breast : foodItem :=
  {| id := Some "common-0"; name := "Chicken Breast (cooked)"; brand := None;
     protein := 31%Q; proteinPerServing := None; servingSize := 100%Q;
     servingUnit := "g"; source := common; image := None;
     confidence := None; originalClass := None |}.

(** The protein figures the normalizer may select ([proteins_100g], then
    [proteins]) are absent or non-negative. *)
Definition nonneg_field (a : option num) : Prop :=
  match a with
  | Some x => (0 <= x)%Q
  | None => True
  end.

Definition nonneg_proteins (p : product) : Prop :=
  match nutriments p with
  | Some n => nonneg_field (proteins_100g n) ∧ nonneg_field (proteins n)
  | None => True
  end.

(** A figure of the payload that is present and not zero. *)
Definition declared (a : option num) : option num :=
  match a with
  | Some x => if truthy x then Some x else None
  | None => None
  end.

(** The figures of a payload that the normalizer rounds: the per-100
    figure is the primary key [proteins_100g], the secondary key [proteins]
    when the primary is missing or zero, and 0 when both are; the serving
    size is the declared one, or 100; the per-serving figure is the measured
    [proteins_serving], or else the per-100 figure scaled to the serving
    size. *)
Definition per100_figure (p : product) : num :=
  let n := default empty_nutriments (nutriments p) in
  match declared (proteins_100g n), declared (proteins n) with
  | Some x, _ => x
  | None, Some y => y
  | None, None => 0%Q
  end.

Definition serving_figure (p : product) : num :=
  let n := default empty_nutriments (nutriments p) in
  match declared (serving_size n) with
  | Some s => s
  | None => 100%Q
  end.

Definition per_serving_figure (p : product) : num :=
  let n := default empty_nutriments (nutriments p) in
  match declared (proteins_serving n) with
  | Some x => x
  | None => fdiv (fmul (per100_figure p) (serving_figure p)) 100%Q
  end.

(** A catalogue entry with a negative per-100 protein figure. *)
Definition negative_product : product :=
  mkProduct (Some "0001") (Some "Mislabelled") None
            (Some (mkNutriments (Some (-5)%Q) None None None)) None.

(** A catalogue entry with a per-100 figure of 10 and a directly measured
    per-serving figure of 5, and no declared serving size. *)
Definition direct_serving_product : product :=
  mkProduct (Some "0002") (Some "Shake") None
            (Some (mkNutriments (Some 10%Q) None None (Some 5%Q))) None.


(** A catalogue entry with a per-100 figure of 31.25 and a declared serving
    size of 30. *)
Definition quarter_product : product :=
  mkProduct (Some "0006") (Some "Jerky") None
            (Some (mkNutriments (Some 31.25%Q) None (Some 30%Q) None)) None.

(** Tofu as a resolved record: 8 g of protein per 100 g. *)
Definition tofu_record : foodItem := commonFood "Tofu (firm)" 8%Q 100%Q "g".

(** The pairs that pass the confidence threshold. *)
Definition surviving (predictions : list prediction) : list prediction :=
  filter (λ pred, (MIN_CONFIDENCE <= probability pred)%Q) predictions.

(** A record emitted by the direct mapping: its identifier names a key of
    [FOOD_CLASS_MAPPINGS]. *)
Definition direct_record (r : foodItem) : Prop :=
  ∃ key value, (key, value) ∈ FOOD_CLASS_MAPPINGS
               ∧ id r = Some ("recognized-" +:+ key)
               ∧ name r = fst value ∧ protein r = snd value.




(** Two classifier outputs whose labels both contain the key "crab". *)
Definition two_crabs : list prediction :=
  [ mkPrediction "Dungeness crab, Cancer magister" 0.5%Q;
    mkPrediction "rock crab, Cancer irroratus" 0.4%Q ].

(** Two classifier outputs without a direct mapping, each with a curated
    match ("Lean Beef (cooked)" and "Egg (whole)"). *)
Definition bee_and_egg : list prediction :=
  [ mkPrediction "bee" 0.4%Q; mkPrediction "egg" 0.35%Q ].

(** One label with a direct mapping and one with a curated match only. *)
Definition pizza_and_bee : list prediction :=
  [ mkPrediction "pizza, pizza pie" 0.5%Q; mkPrediction "bee" 0.4%Q ].

(** A classifier that ranks four labels and returns the first [k]. *)
Definition four_label_model : classifier :=
  λ k, Ok (take k [ mkPrediction "pizza, pizza pie" 0.3%Q;
                    mkPrediction "cheeseburger" 0.3%Q;
                    mkPrediction "bagel, beigel" 0.3%Q;
                    mkPrediction "pretzel" 0.1%Q ]).

(** A successful response carrying the given products. *)
Definition ok_response (ps : list product) : result response :=
  Ok (mkResponse true 200 (Ok (mkBody (Some ps)))).

(** A catalogue entry whose code reads like a curated identifier. *)
Definition colliding_product : product :=
  mkProduct (Some "common-0") (Some "Chicken stock") None
            (Some (mkNutriments (Some 1%Q) None None None)) None.

(** Two remote answers for one search that both carry the key "X123",
    under different names. *)
Definition x123_first : product :=
  mkProduct (Some "X123") (Some "Oat drink") None
            (Some (mkNutriments (Some 3%Q) None None None)) None.

Definition x123_second : product :=
  mkProduct (Some "X123") (Some "Oat milk, barista") None
            (Some (mkNutriments (Some 1%Q) None None None)) None.

(** A remote record named like the first curated entry, in lower case. *)
Definition remote_chicken : foodItem :=
  transformProduct
    (mkProduct (Some "4006") (Some "chicken breast (cooked)") None
               (Some (mkNutriments (Some 31.2%Q) None None None)) None).

(** * Further code of the services *)

(** ** nutritionApi.js: the barcode lookup *)

Module Barcode.

(** The body of the product endpoint: [status] is 1 when the catalogue
    knows the barcode. *)
Record body := mkBody { status : option Z; product : option product }.

Record response := mkResponse {
  ok : bool;
  http_status : nat;
  json : result body
}.

Definition fetcher := string → result response.

(** [getFoodByBarcode], lines 91-116; [None] is [null]. *)
Definition getFoodByBarcode (fetch : fetcher) (barcode : string) : option foodItem :=
  try_catch
    (response ← fetch barcode;
     if negb (ok response) then Throw (ApiError (http_status response)) else
     data ← json response;
     mret (match status data, product data with
           | Some 1%Z, Some p => Some (transformProduct p)
           | _, _ => None
           end))
    (λ _, None).

End Barcode.

(** The network that answers every barcode lookup with a found product. *)
Definition barcode_found (p : product) : Barcode.fetcher :=
  λ _, Ok (Barcode.mkResponse true 200 (Ok (Barcode.mkBody (Some 1%Z) (Some p)))).

(** A catalogue entry without a nutrient map. *)
Definition bare_product : product :=
  mkProduct (Some "0004") (Some "Sparkling water") None None None.

(** ** Vocabulary for the label resolver *)

(** The keys of [entries] that some label can select: a key is shadowed when
    the lower-cased text of a key before it occurs inside its own, for then
    every label that contains the key contains the earlier one. *)
Fixpoint selectable (earlier : list string) (entries : list (string * (string * num)))
  : list string :=
  match entries with
  | [] => []
  | (key, _) :: rest =>
      if existsb (λ k, includes (toLowerCase key) (toLowerCase k)) earlier
      then selectable (key :: earlier) rest
      else key :: selectable (key :: earlier) rest
  end.

(** The keywords of a label, as [fuzzyMatchFoods] computes them. *)
Definition keywords_of (prediction : prediction) : list string :=
  trim <$> split_sep (toLowerCase (className prediction)).

(** Labels with the keys "cottage cheese" and "scrambled eggs". *)
Definition cottage_cheese_label : prediction :=
  mkPrediction "Cottage cheese, curd" 0.9%Q.

(** ** The food search component: selection and adding *)

Module FoodSearch.

(** The component state the handlers read and write. *)
Record state := mkState {
  selectedFood : option foodItem;
  servingSize : num;
  selectedMeal : string
}.

End FoodSearch.

(** [handleSelectFood], lines 455-458 of the component. *)
Definition handleSelectFood (food : foodItem) (st : FoodSearch.state) : FoodSearch.state :=
  {| FoodSearch.selectedFood := Some food;
     FoodSearch.servingSize := or_num (Some (servingSize food)) 100%Q;
     FoodSearch.selectedMeal := FoodSearch.selectedMeal st |}.

(** The [onChange] of the serving-size input, line 641, for a numeric
    input value: [setServingSize(Math.max(1, Number(e.target.value)))]. *)
Definition handleServingChange (value : num) (st : FoodSearch.state) : FoodSearch.state :=
  {| FoodSearch.selectedFood := FoodSearch.selectedFood st;
     FoodSearch.servingSize := Qmax 1 value;
     FoodSearch.selectedMeal := FoodSearch.selectedMeal st |}.

(** [handleAdd], lines 468-481: the meal and the entry handed to [onAdd], or
    [None] when nothing is selected. *)
Definition handleAdd (st : FoodSearch.state) : option (string * foodItem) :=
  match FoodSearch.selectedFood st with
  | None => None
  | Some selected =>
      Some (FoodSearch.selectedMeal st,
            {| id := None;
               name := name selected;
               brand := None;
               protein := calculateProtein (FoodSearch.selectedFood st)
                                           (FoodSearch.servingSize st);
               proteinPerServing := None;
               servingSize := FoodSearch.servingSize st;
               servingUnit := or_str (Some (servingUnit selected)) "g";
               source := source selected;
               image := None;
               confidence := None;
               originalClass := None |})
  end.

(** The whey powder entry of the curated table: 25 g per serving of 30 g. *)
Definition whey_record : foodItem := commonFood "Whey Protein Powder" 25%Q 30%Q "g".

(** A fresh component state. *)
Definition initial_search_state : FoodSearch.state :=
  FoodSearch.mkState None 100%Q "breakfast".

(** ** useFoodLog.js: the derived progress values *)

(** Lines 59-66 of [useFoodLog], from [log.totalProtein] and [goal].  The
    division is exact; a goal of 0 is outside the model. *)
Definition progress (totalProtein goal : num) : num :=
  Qmin (totalProtein / goal * 100) 100.

Definition remaining (totalProtein goal : num) : num :=
  Qmax (goal - totalProtein) 0.

Definition isGoalReached (totalProtein goal : num) : bool :=
  bool_decide (goal <= totalProtein)%Q.

(** ** GoalSetter.jsx *)


(** ** The local storage service

    The service is the second part of the listing of [foodRecognition.js],
    lines 214-430.  A value the service writes is read back as written:
    [JSON.stringify] followed by [JSON.parse] is taken as the identity on
    the objects the service stores. *)

(** [parseInt(s, 10)]: leading white space, an optional sign and the longest
    run of decimal digits; [None] is [NaN]. *)
Definition digit (c : ascii) : option N :=
  let n := N_of_ascii c in
  if (48 <=? n)%N && (n <=? 57)%N then Some (n - 48)%N else None.

Fixpoint parse_digits (acc : option N) (s : string) : option N :=
  match s with
  | EmptyString => acc
  | String c s' =>
      match digit c with
      | Some d => parse_digits (Some (10 * default 0%N acc + d)%N) s'
      | None => acc
      end
  end.

Definition parseInt (s : string) : option Z :=
  match trimStart s with
  | String "-" t => Z.opp <$> (Z.of_N <$> parse_digits None t)
  | String "+" t => Z.of_N <$> parse_digits None t
  | t => Z.of_N <$> parse_digits None t
  end.

Module Storage.

(** What [localStorage.getItem] followed by [JSON.parse] gives for a key:
    nothing, a text that does not parse, or a value of the shape the service
    writes. *)
Inductive stored (A : Type) := Absent | Unparsable | Parsed (a : A).
Arguments Absent {A}.
Arguments Unparsable {A}.
Arguments Parsed {A} a.

(** A logged food: [{ ...foodItem, id, timestamp }]. *)
Record mealItem := mkMealItem { item : foodItem; timestamp : string }.

(** The [meals] object of a log, in the insertion order of its keys. *)
Definition mealTable := list (string * list mealItem).

Record dailyLog := mkLog {
  date : string;
  goal : option Z;
  meals : mealTable;
  totalProtein : num
}.

(** The three keys of [STORAGE_KEYS]; [writable] tells whether [setItem]
    succeeds or throws (quota, private mode). *)
Record localStorage := mkStorage {
  DAILY_LOGS : stored (gmap string dailyLog);
  GOAL : option string;
  RECENT_FOODS : stored (list foodItem);
  writable : bool
}.

Definition DEFAULT_PROTEIN_GOAL : Z := 150.

(** [getAllLogs], lines 223-231. *)
Definition getAllLogs (st : localStorage) : gmap string dailyLog :=
  match DAILY_LOGS st with
  | Parsed logs => logs
  | Absent | Unparsable => ∅
  end.

(** [getProteinGoal], lines 330-338; [None] is [NaN]. *)
Definition getProteinGoal (st : localStorage) : option Z :=
  match GOAL st with
  | Some (String c s) => parseInt (String c s)
  | Some EmptyString | None => Some DEFAULT_PROTEIN_GOAL
  end.

(** [setProteinGoal], lines 344-352, for an integer goal, whose
    [toString()] is its decimal numeral. *)
Definition setProteinGoal (newGoal : Z) (st : localStorage) : bool * localStorage :=
  if writable st
  then (true, mkStorage (DAILY_LOGS st) (Some (pretty newGoal)) (RECENT_FOODS st)
                        (writable st))
  else (false, st).

Definition empty_meals : mealTable :=
  [("breakfast", []); ("lunch", []); ("dinner", []); ("snack", [])].

(** [getLogByDate], lines 238-253, for a date key. *)
Definition getLogByDate (dateKey : string) (st : localStorage) : dailyLog :=
  default (mkLog dateKey (getProteinGoal st) empty_meals 0%Q)
          (getAllLogs st !! dateKey).

(** [saveLog], lines 259-269. *)
Definition saveLog (log : dailyLog) (st : localStorage) : bool * localStorage :=
  if writable st
  then (true, mkStorage (Parsed (<[date log := log]> (getAllLogs st)))
                        (GOAL st) (RECENT_FOODS st) (writable st))
  else (false, st).

(** [meals[mealType]] *)
Fixpoint meal_lookup (mealType : string) (table : mealTable) : option (list mealItem) :=
  match table with
  | [] => None
  | (key, items) :: rest =>
      if decide (key = mealType) then Some items else meal_lookup mealType rest
  end.

(** [meals[mealType] = items]: an existing key keeps its place, a new key
    goes last. *)
Fixpoint meal_set (mealType : string) (items : list mealItem) (table : mealTable)
  : mealTable :=
  match table with
  | [] => [(mealType, items)]
  | (key, old) :: rest =>
      if decide (key = mealType) then (key, items) :: rest
      else (key, old) :: meal_set mealType items rest
  end.

(** [calculateTotalProtein], lines 320-324. *)
Definition calculateTotalProtein (table : mealTable) : num :=
  fold_left (λ total it, (total + or_num (Some (protein (item it))) 0)%Q)
            (concat (snd <$> table)) 0%Q.

(** [addFoodToMeal], lines 277-294; [newId] and [now] are what
    [crypto.randomUUID()] (or [Date.now()]) and [new Date().toISOString()]
    give at the call. *)
Definition addFoodToMeal (dateKey mealType : string) (foodItem : foodItem)
    (newId now : string) (st : localStorage) : option dailyLog * localStorage :=
  let log := getLogByDate dateKey st in
  let table :=
    match meal_lookup mealType (meals log) with
    | None => meal_set mealType [] (meals log)
    | Some _ => meals log
    end in
  let items := default [] (meal_lookup mealType table) in
  let table := meal_set mealType (items ++ [mkMealItem (with_id foodItem (Some newId)) now])
                        table in
  let log := mkLog (date log) (goal log) table (calculateTotalProtein table) in
  let '(saved, st') := saveLog log st in
  (if saved then Some log else None, st').

(** [removeFoodFromMeal], lines 302-313. *)
Definition removeFoodFromMeal (dateKey mealType foodId : string) (st : localStorage)
  : option dailyLog * localStorage :=
  let log := getLogByDate dateKey st in
  let table :=
    match meal_lookup mealType (meals log) with
    | Some items =>
        meal_set mealType (filter (λ it, id (item it) ≠ Some foodId) items) (meals log)
    | None => meals log
    end in
  let log := mkLog (date log) (goal log) table (calculateTotalProtein table) in
  let '(saved, st') := saveLog log st in
  (if saved then Some log else None, st').

(** [getRecentFoods], lines 358-366. *)
Definition getRecentFoods (st : localStorage) : list foodItem :=
  match RECENT_FOODS st with
  | Parsed foods => foods
  | Absent | Unparsable => []
  end.

(** The five fields [addRecentFood] keeps of a food. *)
Definition recentOf (food : foodItem) : foodItem :=
  {| id := None; name := name food; brand := None; protein := protein food;
     proteinPerServing := None; servingSize := servingSize food;
     servingUnit := servingUnit food; source := source food; image := None;
     confidence := None; originalClass := None |}.

(** [addRecentFood], lines 372-397. *)
Definition addRecentFood (food : foodItem) (st : localStorage) : bool * localStorage :=
  let recent := getRecentFoods st in
  let recent := filter (λ f, name f ≠ name food) recent in
  let recent := recentOf food :: recent in
  let recent := take 20 recent in
  if writable st
  then (true, mkStorage (DAILY_LOGS st) (GOAL st) (Parsed recent) (writable st))
  else (false, st).

(** Every log is stored under its own date. *)
Definition keyed_by_date (st : localStorage) : Prop :=
  ∀ dateKey log, getAllLogs st !! dateKey = Some log → date log = dateKey.

(** The sum of the protein of a list of logged foods. *)
Definition protein_sum (items : list mealItem) : num :=
  fold_left (λ total it, (total + or_num (Some (protein (item it))) 0)%Q) items 0%Q.

End Storage.

(** [addFood] of [useFoodLog], lines 29-38 of the hook: log the food, then
    remember it among the recent foods. *)
Definition addFood (dateKey mealType : string) (foodItem : foodItem)
    (newId now : string) (st : Storage.localStorage) : bool * Storage.localStorage :=
  match Storage.addFoodToMeal dateKey mealType foodItem newId now st with
  | (Some updatedLog, st') => (true, snd (Storage.addRecentFood foodItem st'))
  | (None, st') => (false, st')
  end.

(** An empty, writable storage. *)
Definition fresh_storage : Storage.localStorage :=
  Storage.mkStorage Storage.Absent None Storage.Absent true.

(** ** foodRecognition.js: the model singleton *)

Module ModelCache.

(** The three module variables of lines 10-12, and what the JavaScript
    run time holds besides them: [started] counts the calls of
    [mobilenet.load] so far (a promise is named by the number of its call),
    and [awaiting] lists the promises whose caller is suspended at the
    [await] of line 34. *)
Record state := mkState {
  model : option classifier;
  modelLoading : bool;
  modelLoadPromise : option nat;
  started : nat;
  awaiting : list nat
}.

Definition initial : state := mkState None false None 0 [].

(** What a call of [loadModel] does before it returns or suspends. *)
Inductive outcome :=
  | Cached (m : classifier)      (* line 20: [return model] *)
  | Joined (promise : nat)       (* line 24: [return modelLoadPromise] *)
  | Started (promise : nat).     (* lines 27-34: a new load, then [await] *)

(** [loadModel], lines 18-31, up to the [await]. *)
Definition call_loadModel (st : state) : outcome * state :=
  match model st with
  | Some m => (Cached m, st)
  | None =>
      if modelLoading st && bool_decide (is_Some (modelLoadPromise st))
      then (Joined (default 0%nat (modelLoadPromise st)), st)
      else (Started (started st),
            mkState None true (Some (started st)) (S (started st))
                    (started st :: awaiting st))
  end.

(** [loadModel], lines 33-42: the suspended caller resumes when its promise
    settles, with the model or with the error. *)
Definition resume (promise : nat) (settled : result classifier) (st : state) : state :=
  match settled with
  | Ok m =>
      mkState (Some m) (modelLoading st) (modelLoadPromise st) (started st)
              (filter (λ p, p ≠ promise) (awaiting st))
  | Throw _ =>
      mkState (model st) false None (started st)
              (filter (λ p, p ≠ promise) (awaiting st))
  end.

(** One step of the service: some caller calls [loadModel], or a pending
    load settles and its caller resumes. *)
Inductive step : state → state → Prop :=
  | step_call st : step st (call_loadModel st).2
  | step_resume st promise settled :
      promise ∈ awaiting st → step st (resume promise settled st).

Definition reachable (st : state) : Prop := rtc step initial st.

(** [getModelStatus], lines 209-214, as the pair (loaded, loading). *)
Definition getModelStatus (st : state) : bool * bool :=
  (bool_decide (is_Some (model st)), modelLoading st).

(** The three shapes of the singleton. *)
Definition idle (st : state) : Prop :=
  model st = None ∧ modelLoading st = false ∧ modelLoadPromise st = None
  ∧ awaiting st = [].

Definition in_flight (promise : nat) (st : state) : Prop :=
  model st = None ∧ modelLoading st = true ∧ modelLoadPromise st = Some promise
  ∧ awaiting st = [promise] ∧ (promise < started st)%nat.

Definition loaded (m : classifier) (st : state) : Prop :=
  model st = Some m ∧ awaiting st = [].

Definition cache_shape (st : state) : Prop :=
  idle st ∨ (∃ promise, in_flight promise st) ∨ (∃ m, loaded m st).

End ModelCache.

(** * Properties *)

(** ** The result merger *)

Section Dedup.
Implicit Types (seen : gset (option string)) (l : list product) (p : product).

Lemma uniqueProducts_from_elem seen l p :
  p ∈ uniqueProducts_from seen l → p ∈ l ∧ code p ∉ seen.
Proof.
  revert seen. induction l as [|q l IH]; intros seen; simpl.
  - by intros ?%elem_of_nil.
  - case_decide as Hq.
    + intros Hin. apply IH in Hin as [? ?]. split; [by right | done].
    + intros [->|Hin]%elem_of_cons; [split; [by left | done] |].
      apply IH in Hin as [? Hns]. apply not_elem_of_union in Hns as [_ ?].
      split; [by right | done].
Qed.


Lemma uniqueProducts_from_NoDup seen l :
  NoDup (code <$> uniqueProducts_from seen l).
Proof.
  revert seen. induction l as [|q l IH]; intros seen; simpl; [constructor |].
  case_decide; [apply IH |].
  rewrite fmap_cons. constructor; [| apply IH].
  intros (p & Hc & Hin)%list_elem_of_fmap.
  apply uniqueProducts_from_elem in Hin as [_ Hns]. set_solver.
Qed.




End Dedup.


Lemma mergeProducts_sublist A B :
  mergeProducts A B `sublist_of` transformProduct <$> uniqueProducts (A ++ B).
Proof. apply sublist_filter. Qed.

Lemma mergeProducts_elem A B r :
  r ∈ mergeProducts A B →
  ∃ p, r = transformProduct p ∧ p ∈ uniqueProducts (A ++ B) ∧ (0 < protein r)%Q.
Proof.
  unfold mergeProducts. intros [Hpos Hin]%list_elem_of_filter.
  apply list_elem_of_fmap in Hin as (p & -> & Hp). eauto.
Qed.

Lemma mergeProducts_NoDup A B : NoDup (id <$> mergeProducts A B).
Proof.
  eapply sublist_NoDup; [| apply fmap_sublist, mergeProducts_sublist].
  rewrite <- list_fmap_compose.
  apply (uniqueProducts_from_NoDup ∅ (A ++ B)).
Qed.



(** The two answers with key "X123" merge into one record, named as in the
    first array. *)
Example mergeProducts_x123 :
  name <$> mergeProducts [x123_first] [x123_second] = ["Oat drink"].
Proof. reflexivity. Qed.

(** ** The remote search *)


(** A free-text answer that alone would give a result is lost when the
    structured search fails, and used when it succeeds. *)
Example searchFoods_secondary_discarded :
  searchFoods (fetch_of (Throw NetworkError) (ok_response [x123_first])) "oat" = []
  ∧ name <$> searchFoods (fetch_of (ok_response []) (ok_response [x123_first])) "oat"
    = ["Oat drink"].
Proof. split; reflexivity. Qed.

(** ** The source-priority combiner *)

Lemma filter_none {A} (P : A → Prop) `{!∀ x, Decision (P x)} (l : list A) :
  Forall (λ x, ¬ P x) l → filter P l = [].
Proof.
  induction 1 as [|x l Hx _ IH]; [done |].
  by rewrite filter_cons_False.
Qed.

Lemma isDuplicate_false commonResults apiFood :
  isDuplicate commonResults apiFood = false ↔ not_shadowed commonResults apiFood.
Proof.
  unfold isDuplicate, not_shadowed.
  induction commonResults as [|c l IH]; simpl.
  - split; [constructor | done].
  - rewrite orb_false_iff, IH, Forall_cons, String.eqb_neq. done.
Qed.

Lemma combine_fold commonResults apiResults acc :
  fold_left (λ combined apiFood,
               if negb (isDuplicate commonResults apiFood)
               then combined ++ [apiFood] else combined)
            apiResults acc
  = acc ++ filter (not_shadowed commonResults) apiResults.
Proof.
  revert acc. induction apiResults as [|a l IH]; intros acc; simpl.
  - by rewrite filter_nil, app_nil_r.
  - rewrite IH. destruct (isDuplicate commonResults a) eqn:Hdup; simpl.
    + rewrite filter_cons_False; [done |].
      intros Hns%isDuplicate_false. congruence.
    + rewrite filter_cons_True by by apply isDuplicate_false.
      by rewrite <- app_assoc.
Qed.

Lemma searchAllFoods_eq remote query :
  searchAllFoods remote query
  = Ok (searchCommonFoods query
        ++ filter (not_shadowed (searchCommonFoods query))
                  (try_catch (remote query) (λ _, []))).
Proof. unfold searchAllFoods. by rewrite combine_fold. Qed.

Lemma with_id_twice food i j : with_id (with_id food i) j = with_id food j.
Proof. reflexivity. Qed.

Lemma with_id_None food : id food = None → with_id food None = food.
Proof. destruct food; simpl; by intros ->. Qed.

Lemma imap_with_id_erase (h : nat → option string) (l : list foodItem) :
  Forall (λ food, id food = None) l →
  (λ food, with_id food None) <$> imap (λ index food, with_id food (h index)) l = l.
Proof.
  revert h. induction l as [|x l IH]; intros h Hl; [done |].
  apply Forall_cons in Hl as [Hx Hl].
  rewrite imap_cons, fmap_cons, with_id_twice, with_id_None by done.
  f_equal. apply (IH (h ∘ S) Hl).
Qed.

Lemma COMMON_FOODS_no_id : Forall (λ food, id food = None) COMMON_FOODS.
Proof. repeat constructor. Qed.

Lemma searchCommonFoods_erase query :
  (λ food, with_id food None) <$> searchCommonFoods query
  = filter (λ food, includes (toLowerCase (name food)) (toLowerCase query) = true)
           COMMON_FOODS.
Proof.
  unfold searchCommonFoods. apply imap_with_id_erase.
  apply Forall_forall. intros food [_ Hin]%list_elem_of_filter.
  by apply (proj1 (Forall_forall _ _) COMMON_FOODS_no_id).
Qed.

(** C2: for every query, when the remote callback fails the combiner
    resolves to exactly the curated matches of the query; this covers a
    rejected or non-success structured search and a rejected free-text
    search behind [searchFoods]; and the combiner never throws, whatever the
    callback does. *)
Theorem searchAllFoods_failing_remote (query : string) :
  (∀ remote e, remote query = Throw e →
     searchAllFoods remote query = Ok (searchCommonFoods query))
  ∧ (∀ e secondary,
       searchAllFoods (remoteSearch (fetch_of (Throw e) secondary)) query
       = Ok (searchCommonFoods query))
  ∧ (∀ st body secondary,
       searchAllFoods (remoteSearch (fetch_of (Ok (mkResponse false st body)) secondary))
                      query
       = Ok (searchCommonFoods query))
  ∧ (∀ st data e,
       searchAllFoods (remoteSearch (fetch_of (Ok (mkResponse true st (Ok data)))
                                              (Throw e))) query
       = Ok (searchCommonFoods query))
  ∧ (∀ remote, ∃ combined, searchAllFoods remote query = Ok combined).
Proof.
  split_and!.
  - intros remote e He. rewrite searchAllFoods_eq, He. simpl.
    by rewrite filter_nil, app_nil_r.
  - intros e secondary. rewrite searchAllFoods_eq.
    change (try_catch _ _) with (@nil foodItem).
    by rewrite filter_nil, app_nil_r.
  - intros st body secondary. rewrite searchAllFoods_eq.
    change (try_catch _ _) with (@nil foodItem).
    by rewrite filter_nil, app_nil_r.
  - intros st data e. rewrite searchAllFoods_eq.
    change (try_catch _ _) with (@nil foodItem).
    by rewrite filter_nil, app_nil_r.
  - intros remote. rewrite searchAllFoods_eq. eauto.
Qed.

Lemma searchAllFoods_failing_remote_witness :
  searchAllFoods (λ _, Throw NetworkError) "chicken" = Ok [curated_chicken_breast].
Proof.
  exact (proj1 (searchAllFoods_failing_remote "chicken")
               (λ _, Throw NetworkError) NetworkError eq_refl).
Defined.

(** C3: for every query and every remote outcome, the combiner's output is
    the curated matches followed by the remote records whose lower-cased
    name differs from the lower-cased name of every curated match; the
    curated matches are, up to the identifiers they are given, the matching
    entries of [COMMON_FOODS] in table order; and for the query "chicken"
    the output holds exactly one record whose lower-cased name is
    "chicken breast (cooked)", the curated one, whatever the remote search
    returns. *)
Theorem searchAllFoods_curated_then_remote (remote : string → result (list foodItem)) :
  (∀ query,
     searchAllFoods remote query
     = Ok (searchCommonFoods query
           ++ filter (not_shadowed (searchCommonFoods query))
                     (try_catch (remote query) (λ _, []))))
  ∧ (∀ query,
       (λ food, with_id food None) <$> searchCommonFoods query
       = filter (λ food, includes (toLowerCase (name food)) (toLowerCase query) = true)
                COMMON_FOODS)
  ∧ (∃ combined,
       searchAllFoods remote "chicken" = Ok combined
       ∧ filter (λ food, toLowerCase (name food) = "chicken breast (cooked)") combined
         = [curated_chicken_breast]).
Proof.
  split_and!.
  - intros query. apply searchAllFoods_eq.
  - apply searchCommonFoods_erase.
  - eexists. split; [apply searchAllFoods_eq |].
    rewrite filter_app.
    change (searchCommonFoods "chicken") with [curated_chicken_breast].
    rewrite filter_cons_True, filter_nil by reflexivity.
    rewrite filter_none; [done |].
    apply Forall_forall. intros a [Hns _]%list_elem_of_filter Hname.
    apply Forall_cons in Hns as [Hne _]. by apply Hne.
Qed.

(** The remote record named "chicken breast (cooked)" is suppressed by the
    curated "Chicken Breast (cooked)". *)
Example searchAllFoods_chicken :
  searchAllFoods (λ _, Ok [remote_chicken]) "chicken" = Ok [curated_chicken_breast].
Proof. reflexivity. Qed.

(** ** Binary64 rounding *)

Section Binary64.
Local Open Scope Q_scope.

Lemma round_half_even_floor (x : Q) :
  (Qfloor x <= round_half_even x <= Qfloor x + 1)%Z.
Proof.
  unfold round_half_even. destruct (x - inject_Z (Qfloor x) ?= 1 # 2); [| lia | lia].
  destruct (Z.even (Qfloor x)); lia.
Qed.

Lemma round_half_even_inject_Z (z : Z) : round_half_even (inject_Z z) = z.
Proof.
  unfold round_half_even. rewrite Qfloor_Z.
  assert ((inject_Z z - inject_Z z ?= 1 # 2) = Lt) as ->; [| done].
  change (inject_Z z - inject_Z z < 1 # 2). lra.
Qed.

Lemma round_half_even_mono (x y : Q) : x <= y → (round_half_even x <= round_half_even y)%Z.
Proof.
  intros Hxy.
  pose proof (Qfloor_resp_le x y Hxy) as Hf.
  pose proof (round_half_even_floor x) as Hx.
  pose proof (round_half_even_floor y) as Hy.
  destruct (decide (Qfloor x = Qfloor y)) as [Heq | Hne]; [| lia].
  unfold round_half_even in *. rewrite <- Heq in *.
  destruct (x - inject_Z (Qfloor x) ?= 1 # 2) eqn:Hcx;
    destruct (y - inject_Z (Qfloor x) ?= 1 # 2) eqn:Hcy;
    try (destruct (Z.even (Qfloor x)); lia); try lia; exfalso.
  - apply Qeq_alt in Hcx. apply Qlt_alt in Hcy. lra.
  - apply Qgt_alt in Hcx. apply Qeq_alt in Hcy. lra.
  - apply Qgt_alt in Hcx. apply Qlt_alt in Hcy. lra.
Qed.

#[global] Instance round_half_even_proper : Proper (Qeq ==> eq) round_half_even.
Proof.
  intros x y Hxy. unfold round_half_even.
  assert (Qfloor x = Qfloor y) as -> by (by rewrite Hxy).
  assert ((x - inject_Z (Qfloor y) ?= 1 # 2) = (y - inject_Z (Qfloor y) ?= 1 # 2)) as ->
    by (by rewrite Hxy).
  done.
Qed.


Lemma two_power_pos (k : Z) : 0 < 2 ^ k.
Proof. by apply Qpower_0_lt. Qed.

Lemma two_power_succ (k : Z) : 2 ^ (k + 1) == 2 ^ k * 2.
Proof. rewrite Qpower_plus by discriminate. reflexivity. Qed.

Lemma two_power_le (j k : Z) : (j <= k)%Z → 2 ^ j <= 2 ^ k.
Proof. intros Hjk. apply Qpower_le_compat_l; [done | discriminate]. Qed.

Lemma Zlog2_Qpower (n : Z) :
  (0 < n)%Z → 2 ^ Z.log2 n <= inject_Z n ∧ inject_Z n < 2 ^ Z.log2 n * 2.
Proof.
  intros Hn. destruct (Z.log2_spec n Hn) as [Hlow Hhigh].
  pose proof (Z.log2_nonneg n) as Hnn.
  rewrite <- two_power_succ.
  change 2 with (inject_Z 2). rewrite <- !Zpower_Qpower by lia.
  rewrite <- Zle_Qle, <- Zlt_Qlt. split; [done |]. by rewrite Z.add_1_r.
Qed.

Lemma Qlog2_spec (x : Q) : 0 < x → 2 ^ Qlog2 x <= x ∧ x < 2 ^ (Qlog2 x + 1).
Proof.
  intros Hx. unfold Qlog2.
  destruct x as [n d]. assert (0 < n)%Z as Hn by (unfold Qlt in Hx; simpl in Hx; lia).
  simpl Qnum. simpl Qden.
  destruct (Zlog2_Qpower n Hn) as [Hna Hnb].
  destruct (Zlog2_Qpower (Zpos d) eq_refl) as [Hda Hdb].
  set (a := Z.log2 n) in *. set (b := Z.log2 (Z.pos d)) in *.
  pose proof (two_power_pos a) as Hqa. pose proof (two_power_pos b) as Hqb.
  assert (2 ^ (a - b) == 2 ^ a / 2 ^ b) as Hk by (apply Qpower_minus; discriminate).
  assert (n # d == inject_Z n / inject_Z (Zpos d)) as Hxd by apply Qmake_Qdiv.
  assert (0 < inject_Z (Zpos d)) as Hd by (rewrite <- (Zlt_Qlt 0); lia).
  set (n' := inject_Z n) in *. set (d' := inject_Z (Zpos d)) in *.
  set (qa := 2 ^ a) in *. set (qb := 2 ^ b) in *.
  destruct (Qle_bool (2 ^ (a - b)) (n # d)) eqn:Hle.
  - apply Qle_bool_iff in Hle. split; [done |].
    rewrite two_power_succ, Hk, Hxd.
    apply Qlt_shift_div_r; [done |].
    assert (qa / qb * 2 * d' == (qa * 2 * d') / qb) as -> by (field; lra).
    apply Qlt_shift_div_l; [done |]. nra.
  - assert (n # d < 2 ^ (a - b)) as Hlt.
    { apply Qnot_le_lt. intros H. apply Qle_bool_iff in H. congruence. }
    split.
    + assert (2 ^ (a - b - 1) == qa / (qb * 2)) as ->.
      { rewrite Qpower_minus, Hk by discriminate. change (2 ^ 1) with 2. field. lra. }
      rewrite Hxd. apply Qle_shift_div_l; [done |].
      assert (qa / (qb * 2) * d' == (qa * d') / (qb * 2)) as -> by (field; lra).
      apply Qle_shift_div_r; [lra |]. nra.
    + by replace (a - b - 1 + 1)%Z with (a - b)%Z by lia.
Qed.

Lemma Qlog2_unique (x : Q) (k : Z) : 2 ^ k <= x → x < 2 ^ (k + 1) → Qlog2 x = k.
Proof.
  intros Hlow Hhigh.
  assert (0 < x) as Hx by (pose proof (two_power_pos k); lra).
  destruct (Qlog2_spec x Hx) as [Hl Hh].
  destruct (Z.lt_trichotomy (Qlog2 x) k) as [Hlt | [Heq | Hgt]]; [exfalso | done | exfalso].
  - pose proof (two_power_le (Qlog2 x + 1) k ltac:(lia)). lra.
  - pose proof (two_power_le (k + 1) (Qlog2 x) ltac:(lia)). lra.
Qed.

Lemma Qlog2_mono (x y : Q) : 0 < x → x <= y → (Qlog2 x <= Qlog2 y)%Z.
Proof.
  intros Hx Hxy.
  destruct (Qlog2_spec x Hx) as [Hxl Hxh].
  destruct (Qlog2_spec y ltac:(lra)) as [Hyl Hyh].
  destruct (Z.le_gt_cases (Qlog2 x) (Qlog2 y)) as [? | Hgt]; [done | exfalso].
  pose proof (two_power_le (Qlog2 y + 1) (Qlog2 x) ltac:(lia)). lra.
Qed.

Lemma Qlog2_Qeq (x y : Q) : 0 < x → x == y → Qlog2 x = Qlog2 y.
Proof.
  intros Hx Hxy. destruct (Qlog2_spec x Hx) as [Hl Hh].
  symmetry. apply Qlog2_unique; by rewrite <- Hxy.
Qed.


Lemma ulp_exponent_Qeq (x y : Q) : 0 < x → x == y → ulp_exponent x = ulp_exponent y.
Proof. intros Hx Hxy. unfold ulp_exponent. by rewrite (Qlog2_Qeq x y). Qed.

Lemma ulp_exponent_mono (x y : Q) : 0 < x → x <= y → (ulp_exponent x <= ulp_exponent y)%Z.
Proof.
  intros Hx Hxy. unfold ulp_exponent. pose proof (Qlog2_mono x y Hx Hxy). lia.
Qed.

Lemma ulp_exponent_upper (x : Q) : 0 < x → x < 2 ^ (ulp_exponent x + 53).
Proof.
  intros Hx. destruct (Qlog2_spec x Hx) as [_ Hh].
  eapply Qlt_le_trans; [exact Hh |]. apply two_power_le. unfold ulp_exponent. lia.
Qed.

Lemma ulp_exponent_lower (x : Q) :
  0 < x → (-1074 < ulp_exponent x)%Z → 2 ^ (ulp_exponent x + 52) <= x.
Proof.
  intros Hx Hnormal. destruct (Qlog2_spec x Hx) as [Hl _].
  replace (ulp_exponent x + 52)%Z with (Qlog2 x); [done |].
  unfold ulp_exponent in *. lia.
Qed.

Lemma scaled_lt (x : Q) (e k : Z) : x < 2 ^ (e + k) → x / 2 ^ e < 2 ^ k.
Proof.
  intros Hx. apply Qlt_shift_div_r; [apply two_power_pos |].
  by rewrite Qmult_comm, <- Qpower_plus.
Qed.

Lemma scaled_le (x : Q) (e k : Z) : 2 ^ (e + k) <= x → 2 ^ k <= x / 2 ^ e.
Proof.
  intros Hx. apply Qle_shift_div_l; [apply two_power_pos |].
  by rewrite Qmult_comm, <- Qpower_plus.
Qed.

Lemma two_power_inject (k : Z) : (0 <= k)%Z → 2 ^ k == inject_Z (2 ^ k).
Proof. intros Hk. by rewrite Zpower_Qpower. Qed.

Lemma fl_pos_nonneg (x : Q) : 0 < x → 0 <= fl_pos x.
Proof.
  intros Hx. unfold fl_pos.
  pose proof (two_power_pos (ulp_exponent x)) as He.
  apply Qmult_le_0_compat; [| lra].
  assert (0 <= round_half_even (x / 2 ^ ulp_exponent x))%Z as Hz.
  { rewrite <- (round_half_even_inject_Z 0) at 1. apply round_half_even_mono.
    change (inject_Z 0) with 0. apply Qle_shift_div_l; [done | lra]. }
  by rewrite Zle_Qle in Hz.
Qed.

Lemma fl_pos_upper (x : Q) : 0 < x → fl_pos x <= 2 ^ (ulp_exponent x + 53).
Proof.
  intros Hx. unfold fl_pos.
  pose proof (two_power_pos (ulp_exponent x)) as He.
  rewrite Qpower_plus, (Qmult_comm (2 ^ ulp_exponent x)) by discriminate.
  apply Qmult_le_compat_r; [| lra].
  rewrite (two_power_inject 53) by lia. rewrite <- Zle_Qle.
  rewrite <- (round_half_even_inject_Z (2 ^ 53)). apply round_half_even_mono.
  rewrite <- two_power_inject by lia.
  apply Qlt_le_weak, scaled_lt, ulp_exponent_upper, Hx.
Qed.

Lemma fl_pos_lower (x : Q) :
  0 < x → (-1074 < ulp_exponent x)%Z → 2 ^ (ulp_exponent x + 52) <= fl_pos x.
Proof.
  intros Hx Hnormal. unfold fl_pos.
  pose proof (two_power_pos (ulp_exponent x)) as He.
  rewrite Qpower_plus, (Qmult_comm (2 ^ ulp_exponent x)) by discriminate.
  apply Qmult_le_compat_r; [| lra].
  rewrite (two_power_inject 52) by lia. rewrite <- Zle_Qle.
  rewrite <- (round_half_even_inject_Z (2 ^ 52)). apply round_half_even_mono.
  rewrite <- two_power_inject by lia.
  by apply scaled_le, ulp_exponent_lower.
Qed.

Lemma fl_pos_Qeq (x y : Q) : 0 < x → x == y → fl_pos x == fl_pos y.
Proof.
  intros Hx Hxy. unfold fl_pos. rewrite (ulp_exponent_Qeq x y) by done.
  by rewrite Hxy.
Qed.

Lemma fl_pos_mono (x y : Q) : 0 < x → x <= y → fl_pos x <= fl_pos y.
Proof.
  intros Hx Hxy. assert (0 < y) as Hy by lra.
  pose proof (ulp_exponent_mono x y Hx Hxy) as He.
  destruct (decide (ulp_exponent x = ulp_exponent y)) as [Heq | Hne].
  - unfold fl_pos. rewrite Heq.
    pose proof (two_power_pos (ulp_exponent y)) as Hp.
    apply Qmult_le_compat_r; [| lra].
    rewrite <- Zle_Qle. apply round_half_even_mono.
    apply Qmult_le_compat_r; [done |]. apply Qlt_le_weak, Qinv_lt_0_compat, Hp.
  - eapply Qle_trans; [apply fl_pos_upper, Hx |].
    eapply Qle_trans; [| apply fl_pos_lower; [done |]].
    + apply two_power_le. lia.
    + unfold ulp_exponent in *. lia.
Qed.

Lemma Qred_pos (x : Q) : 0 < x → ∃ p, Qnum (Qred x) = Zpos p.
Proof.
  intros Hx. pose proof (Qred_correct x) as Hr.
  assert (0 < Qred x) as Hpos by (by rewrite Hr).
  unfold Qlt in Hpos. simpl in Hpos.
  destruct (Qnum (Qred x)) as [|p|p]; [lia | by exists p | lia].
Qed.

Lemma Qred_neg (x : Q) : x < 0 → ∃ p, Qnum (Qred x) = Zneg p.
Proof.
  intros Hx. pose proof (Qred_correct x) as Hr.
  assert (Qred x < 0) as Hneg by (by rewrite Hr).
  unfold Qlt in Hneg. simpl in Hneg.
  destruct (Qnum (Qred x)) as [|p|p]; [lia | lia | by exists p].
Qed.

Lemma Qred_zero (x : Q) : x == 0 → Qnum (Qred x) = 0%Z.
Proof.
  intros Hx. pose proof (Qred_correct x) as Hr.
  assert (Qred x == 0) as Hz by (by rewrite Hr).
  unfold Qeq in Hz. simpl in Hz. lia.
Qed.

Lemma fl_Qeq (x y : Q) : x == y → fl x = fl y.
Proof. intros Hxy. unfold fl. by rewrite (Qred_complete x y Hxy). Qed.

#[global] Instance fl_proper : Proper (Qeq ==> Qeq) fl.
Proof. intros x y Hxy. by rewrite (fl_Qeq x y Hxy). Qed.

Lemma fl_of_pos (x : Q) : 0 < x → fl x == fl_pos x.
Proof.
  intros Hx. unfold fl. destruct (Qred_pos x Hx) as [p ->].
  rewrite Qred_correct. apply fl_pos_Qeq; [| apply Qred_correct].
  by rewrite Qred_correct.
Qed.

Lemma fl_of_neg (x : Q) : x < 0 → fl x == - fl_pos (- x).
Proof.
  intros Hx. unfold fl. destruct (Qred_neg x Hx) as [p ->].
  rewrite Qred_correct. apply Qopp_comp. apply fl_pos_Qeq.
  - rewrite Qred_correct. lra.
  - by rewrite Qred_correct.
Qed.

Lemma fl_of_zero (x : Q) : x == 0 → fl x = 0.
Proof. intros Hx. unfold fl. by rewrite (Qred_zero x Hx). Qed.

Lemma fl_nonneg (x : Q) : 0 <= x → 0 <= fl x.
Proof.
  intros Hx. destruct (Qlt_le_dec 0 x) as [Hpos | Hle].
  - rewrite fl_of_pos by done. by apply fl_pos_nonneg.
  - rewrite (fl_of_zero x) by lra. lra.
Qed.

Lemma fl_nonpos (x : Q) : x <= 0 → fl x <= 0.
Proof.
  intros Hx. destruct (Qlt_le_dec x 0) as [Hneg | Hle].
  - rewrite fl_of_neg by done.
    pose proof (fl_pos_nonneg (- x) ltac:(lra)). lra.
  - rewrite (fl_of_zero x) by lra. lra.
Qed.

Lemma fl_mono (x y : Q) : x <= y → fl x <= fl y.
Proof.
  intros Hxy. destruct (Qlt_le_dec 0 x) as [Hx | Hx].
  - rewrite (fl_of_pos x), (fl_of_pos y) by lra. by apply fl_pos_mono.
  - destruct (Qlt_le_dec y 0) as [Hy | Hy].
    + rewrite (fl_of_neg x), (fl_of_neg y) by lra.
      pose proof (fl_pos_mono (- y) (- x) ltac:(lra) ltac:(lra)). lra.
    + pose proof (fl_nonpos x Hx). pose proof (fl_nonneg y Hy). lra.
Qed.


Lemma ulp_exponent_min (x : Q) : (-1074 <= ulp_exponent x)%Z.
Proof. unfold ulp_exponent. lia. Qed.

Lemma ulp_exponent_below (y : Q) (e : Z) :
  0 < y → (-1074 <= e)%Z → y < 2 ^ (e + 53) → (ulp_exponent y <= e)%Z.
Proof.
  intros Hy He Hlt. destruct (Qlog2_spec y Hy) as [Hl _].
  destruct (Z.le_gt_cases (Qlog2 y) (e + 52)) as [Hle | Hgt].
  - unfold ulp_exponent. lia.
  - exfalso. pose proof (two_power_le (e + 53) (Qlog2 y) ltac:(lia)). lra.
Qed.

Lemma fl_pos_scaled_integer (y : Q) (m : Z) :
  0 < y → y == inject_Z m * 2 ^ ulp_exponent y → fl_pos y == y.
Proof.
  intros Hy Heq. unfold fl_pos.
  pose proof (two_power_pos (ulp_exponent y)) as Hp.
  assert (y / 2 ^ ulp_exponent y == inject_Z m) as ->.
  { rewrite Heq at 1. field. lra. }
  by rewrite round_half_even_inject_Z.
Qed.

Lemma fl_pos_representable (y : Q) (m e : Z) :
  0 < y → (-1074 <= e)%Z → y == inject_Z m * 2 ^ e → y <= 2 ^ (e + 53) →
  fl_pos y == y.
Proof.
  intros Hy He Heq Hle.
  assert (forall e', (e' <= e)%Z -> 2 ^ e == inject_Z (2 ^ (e - e')) * 2 ^ e') as Hshift.
  { intros e' He'. rewrite <- two_power_inject by lia.
    rewrite <- Qpower_plus by discriminate. by replace (e - e' + e')%Z with e by lia. }
  destruct (Qlt_le_dec y (2 ^ (e + 53))) as [Hlt | Hge].
  - pose proof (ulp_exponent_below y e Hy He Hlt) as Hbelow.
    apply (fl_pos_scaled_integer y (m * 2 ^ (e - ulp_exponent y))); [done |].
    rewrite inject_Z_mult, <- Qmult_assoc, <- Hshift by done. exact Heq.
  - assert (y == 2 ^ (e + 53)) as Htop by lra.
    assert (ulp_exponent y = (e + 1)%Z) as Hexp.
    { unfold ulp_exponent. rewrite (Qlog2_unique y (e + 53)); [lia | lra |].
      rewrite Htop. apply Qpower_lt_compat_l; [lia | reflexivity]. }
    apply (fl_pos_scaled_integer y (2 ^ 52)); [done |].
    rewrite Hexp, <- two_power_inject, <- Qpower_plus by (lia || discriminate).
    rewrite Htop. by replace (52 + (e + 1))%Z with (e + 53)%Z by lia.
Qed.

Lemma fl_pos_idempotent (x : Q) : 0 < x → 0 < fl_pos x → fl_pos (fl_pos x) == fl_pos x.
Proof.
  intros Hx Hy.
  apply (fl_pos_representable _ (round_half_even (x / 2 ^ ulp_exponent x)) (ulp_exponent x));
    [done | apply ulp_exponent_min | reflexivity | by apply fl_pos_upper].
Qed.

Lemma fl_idempotent (x : Q) : fl (fl x) == fl x.
Proof.
  destruct (Q_dec x 0) as [[Hneg | Hpos] | Hzero].
  - pose proof (fl_of_neg x Hneg) as Hfx.
    pose proof (fl_pos_nonneg (- x) ltac:(lra)) as Hnn.
    destruct (Qlt_le_dec 0 (fl_pos (- x))) as [Hy | Hy].
    + assert (fl_pos (- fl x) == fl_pos (- x)) as Hidem.
      { rewrite (fl_pos_Qeq (- fl x) (fl_pos (- x))); [| lra | lra].
        apply fl_pos_idempotent; [lra | done]. }
      rewrite (fl_of_neg (fl x)) by lra. lra.
    + rewrite (fl_of_zero (fl x)) by lra. lra.
  - pose proof (fl_of_pos x Hpos) as Hfx.
    pose proof (fl_pos_nonneg x Hpos) as Hnn.
    destruct (Qlt_le_dec 0 (fl_pos x)) as [Hy | Hy].
    + assert (fl_pos (fl x) == fl_pos x) as Hidem.
      { rewrite (fl_pos_Qeq (fl x) (fl_pos x)); [| lra | lra].
        by apply fl_pos_idempotent. }
      rewrite (fl_of_pos (fl x)) by lra. lra.
    + rewrite (fl_of_zero (fl x)) by lra. lra.
  - rewrite (fl_of_zero x) by done. by rewrite (fl_of_zero 0).
Qed.

End Binary64.

(** ** Rounding *)

Section Rounding.
Local Open Scope Q_scope.

Lemma fl_canonical (x : Q) : Qred (fl x) = fl x.
Proof.
  unfold fl. destruct (Qnum (Qred x)); [done | |]; apply Qred_complete, Qred_correct.
Qed.

Lemma fl_idempotent_eq (x : Q) : fl (fl x) = fl x.
Proof.
  trans (Qred (fl (fl x))); [symmetry; apply fl_canonical |].
  trans (Qred (fl x)); [apply Qred_complete, fl_idempotent | apply fl_canonical].
Qed.

Lemma fl_literals : fl 0 = 0 ∧ fl 1 = 1 ∧ fl 10 = 10 ∧ fl 100 = 100.
Proof. by vm_compute. Qed.

#[global] Instance fmul_proper : Proper (Qeq ==> Qeq ==> eq) fmul.
Proof.
  intros x x' Hx y y' Hy. unfold fmul. by rewrite (fl_Qeq x x' Hx), (fl_Qeq y y' Hy).
Qed.

#[global] Instance fdiv_proper : Proper (Qeq ==> Qeq ==> eq) fdiv.
Proof.
  intros x x' Hx y y' Hy. unfold fdiv. by rewrite (fl_Qeq x x' Hx), (fl_Qeq y y' Hy).
Qed.

Lemma Qdiv_nonneg (a b : Q) : 0 <= a → 0 <= b → 0 <= a / b.
Proof.
  intros Ha Hb. unfold Qdiv. apply Qmult_le_0_compat; [done | by apply Qinv_le_0_compat].
Qed.

Lemma fmul_nonneg (x y : Q) : 0 <= x → 0 <= y → 0 <= fmul x y.
Proof.
  intros Hx Hy. apply fl_nonneg, Qmult_le_0_compat; by apply fl_nonneg.
Qed.

Lemma fdiv_nonneg (x y : Q) : 0 <= x → 0 <= y → 0 <= fdiv x y.
Proof.
  intros Hx Hy. apply fl_nonneg, Qdiv_nonneg; by apply fl_nonneg.
Qed.

Lemma fmul_mono_l (x1 x2 c : Q) : 0 <= c → x1 <= x2 → fmul x1 c <= fmul x2 c.
Proof.
  intros Hc Hx. apply fl_mono, Qmult_le_compat_r; [by apply fl_mono | by apply fl_nonneg].
Qed.

Lemma fmul_mono_r (p y1 y2 : Q) : 0 <= p → y1 <= y2 → fmul p y1 <= fmul p y2.
Proof.
  intros Hp Hy. apply fl_mono. rewrite !(Qmult_comm (fl p)).
  apply Qmult_le_compat_r; [by apply fl_mono | by apply fl_nonneg].
Qed.

Lemma fdiv_mono_l (x1 x2 d : Q) : 0 <= d → x1 <= x2 → fdiv x1 d <= fdiv x2 d.
Proof.
  intros Hd Hx. apply fl_mono. unfold Qdiv.
  apply Qmult_le_compat_r; [by apply fl_mono | by apply Qinv_le_0_compat, fl_nonneg].
Qed.

Lemma fmul_one_r (x : Q) : fmul x 1 = fl x.
Proof.
  unfold fmul. rewrite (proj1 (proj2 fl_literals)).
  rewrite (fl_Qeq (fl x * 1) (fl x)) by ring. apply fl_idempotent_eq.
Qed.

Lemma fdiv_same (d : Q) : ¬ fl d == 0 → fdiv d d = 1.
Proof.
  intros Hd. unfold fdiv. rewrite (fl_Qeq (fl d / fl d) 1) by (by field).
  apply fl_literals.
Qed.

Lemma fmul_fl_l (x y : Q) : fmul (fl x) y = fmul x y.
Proof. unfold fmul. by rewrite fl_idempotent_eq. Qed.

Lemma Qfloor_unique (x : Q) (z : Z) :
  inject_Z z <= x → x < inject_Z (z + 1) → Qfloor x = z.
Proof.
  intros Hle Hlt.
  pose proof (Qfloor_le x) as Hfl. pose proof (Qlt_floor x) as Hfu.
  assert (z < Qfloor x + 1)%Z by (rewrite Zlt_Qlt; lra).
  assert (Qfloor x < z + 1)%Z by (rewrite Zlt_Qlt; lra).
  lia.
Qed.

#[global] Instance Math_round_proper : Proper (Qeq ==> eq) Math_round.
Proof. intros x y Hxy. unfold Math_round. by rewrite Hxy. Qed.

#[global] Instance round1_proper : Proper (Qeq ==> eq) round1.
Proof. intros x y Hxy. unfold round1. by rewrite Hxy. Qed.

Lemma Math_round_inject_Z (z : Z) : Math_round (inject_Z z) = z.
Proof.
  unfold Math_round.
  apply Qfloor_unique; rewrite ?inject_Z_plus; change (inject_Z 1) with 1; lra.
Qed.

Lemma Math_round_nonneg (x : Q) : 0 <= x → (0 ≤ Math_round x)%Z.
Proof.
  intros Hx. unfold Math_round.
  change 0%Z with (Qfloor 0). apply Qfloor_resp_le. lra.
Qed.

Lemma Math_round_mono (x y : Q) : (x <= y)%Q → (Math_round x ≤ Math_round y)%Z.
Proof. intros Hxy. unfold Math_round. apply Qfloor_resp_le. lra. Qed.

(** [Math.round] gives the nearest integer, the upper one of two. *)
Lemma Math_round_nearest (x : Q) :
  inject_Z (Math_round x) - (1 # 2) <= x ∧ x < inject_Z (Math_round x) + (1 # 2).
Proof.
  unfold Math_round.
  pose proof (Qfloor_le (x + (1 # 2))) as Hlow.
  pose proof (Qlt_floor (x + (1 # 2))) as Hhigh.
  rewrite inject_Z_plus in Hhigh. change (inject_Z 1) with 1 in Hhigh.
  split; lra.
Qed.

Lemma round1_nonneg (x : Q) : 0 <= x → 0 <= round1 x.
Proof.
  intros Hx. unfold round1. apply fdiv_nonneg; [| discriminate].
  assert (0 ≤ Math_round (fmul x 10%Q))%Z as Hz
    by (apply Math_round_nonneg, fmul_nonneg; [done | discriminate]).
  by rewrite Zle_Qle in Hz.
Qed.

Lemma round1_mono (x y : Q) : x <= y → round1 x <= round1 y.
Proof.
  intros Hxy. unfold round1. apply fdiv_mono_l; [discriminate |].
  rewrite <- Zle_Qle. apply Math_round_mono, fmul_mono_l; [discriminate | done].
Qed.

Lemma round1_one_decimal (x : Q) : one_decimal (round1 x).
Proof. by exists (Math_round (fmul x 10)). Qed.

Lemma round1_fl (x : Q) : round1 (fl x) = round1 x.
Proof. unfold round1. by rewrite fmul_fl_l. Qed.

Lemma round1_zero : round1 0 = 0.
Proof. by vm_compute. Qed.

Lemma truthy_ne_0 (x : Q) : truthy x = true ↔ ¬ x == 0.
Proof.
  unfold truthy, Qeq. simpl. rewrite negb_true_iff, Z.eqb_neq. lia.
Qed.

Lemma or_num_truthy (a : option num) (b : num) :
  truthy b = true → truthy (or_num a b) = true.
Proof.
  intros Hb. destruct a as [x|]; simpl; [| done].
  by destruct (truthy x) eqn:Hx.
Qed.

Lemma or_num_nonneg (a : option num) (b : num) :
  nonneg_field a → 0 <= b → 0 <= or_num a b.
Proof.
  intros Ha Hb. destruct a as [x|]; simpl in *; [| done].
  by destruct (truthy x).
Qed.

End Rounding.

(** From here on [fl] is unfolded by computation only. *)
Opaque fl.

(** ** The record normalizer *)

Lemma name_transformProduct (p : product) : name (transformProduct p) ≠ "".
Proof.
  unfold transformProduct; simpl.
  by destruct (product_name p) as [[|c s]|].
Qed.

Lemma servingSize_transformProduct (p : product) :
  truthy (servingSize (transformProduct p)) = true.
Proof. unfold transformProduct; simpl. by apply or_num_truthy. Qed.

Lemma or_num_declared (a : option num) (b : num) :
  or_num a b = default b (declared a).
Proof. destruct a as [x|]; simpl; [| done]. by destruct (truthy x). Qed.

Lemma protein_transformProduct (p : product) :
  protein (transformProduct p) = round1 (per100_figure p).
Proof.
  unfold transformProduct, per100_figure; simpl. f_equal.
  rewrite !or_num_declared.
  by destruct (declared (proteins_100g _)), (declared (proteins _)).
Qed.

Lemma proteinPerServing_transformProduct (p : product) :
  proteinPerServing (transformProduct p) = Some (round1 (per_serving_figure p)).
Proof.
  unfold transformProduct, per_serving_figure, per100_figure, serving_figure; simpl.
  do 2 f_equal. rewrite !or_num_declared.
  by destruct (declared (proteins_serving _)), (declared (proteins_100g _)),
       (declared (proteins _)), (declared (serving_size _)).
Qed.

(** The claim that every normalized record has a non-negative per-100
    protein figure fails on [negative_product]. *)
Lemma transformProduct_negative_protein :
  ¬ (0 <= protein (transformProduct negative_product))%Q.
Proof. vm_compute. intros H. by apply H. Qed.

(** C4 (amended): for every raw payload the normalizer yields a record
    with its missing fields defaulted (a non-empty name, a brand, a non-zero
    serving size, the unit "g"); a payload without a nutrient map yields a
    per-100 protein of 0; the per-100 protein is the per-100 figure of the
    payload and the per-serving protein its per-serving figure, each rounded
    to one decimal place, where rounding [x] gives the quotient by 10 of
    the integer nearest to the tenfold of [x], the upper one of two; and the
    per-100 protein is non-negative when the protein figures of the payload
    are absent or non-negative. *)
Theorem transformProduct_defaults_rounded (p : product) :
  (name (transformProduct p) ≠ ""
   ∧ is_Some (brand (transformProduct p))
   ∧ truthy (servingSize (transformProduct p)) = true
   ∧ servingUnit (transformProduct p) = "g"
   ∧ id (transformProduct p) = code p)
  ∧ (nutriments p = None →
       protein (transformProduct p) = 0%Q
       ∧ proteinPerServing (transformProduct p) = Some 0%Q
       ∧ servingSize (transformProduct p) = 100%Q)
  ∧ (protein (transformProduct p) = round1 (per100_figure p)
     ∧ proteinPerServing (transformProduct p) = Some (round1 (per_serving_figure p))
     ∧ servingSize (transformProduct p) = serving_figure p)
  ∧ (∀ x : num, ∃ z : Z,
       round1 x = fdiv (inject_Z z) 10%Q
       ∧ (inject_Z z - (1 # 2) <= fmul x 10)%Q ∧ (fmul x 10 < inject_Z z + (1 # 2))%Q)
  ∧ (nonneg_proteins p → (0 <= protein (transformProduct p))%Q).
Proof.
  split_and!.
  - apply name_transformProduct.
  - by eexists.
  - apply servingSize_transformProduct.
  - reflexivity.
  - reflexivity.
  - intros Hn. unfold transformProduct. rewrite Hn. by vm_compute.
  - apply protein_transformProduct.
  - apply proteinPerServing_transformProduct.
  - unfold transformProduct, serving_figure; simpl. rewrite or_num_declared.
    by destruct (declared (serving_size _)).
  - intros x. exists (Math_round (fmul x 10%Q)). split; [done |].
    apply Math_round_nearest.
  - unfold nonneg_proteins, transformProduct; simpl.
    destruct (nutriments p) as [n|]; simpl.
    + intros [H100 Hp]. apply round1_nonneg.
      apply or_num_nonneg; [done |]. by apply or_num_nonneg.
    + intros _. by apply round1_nonneg.
Qed.

Lemma transformProduct_defaults_rounded_witness :
  protein (transformProduct (mkProduct (Some "0003") None None None None)) = 0%Q
  ∧ (0 <= protein (transformProduct direct_serving_product))%Q
  ∧ protein (transformProduct quarter_product) = fl 31.3%Q
  ∧ proteinPerServing (transformProduct quarter_product) = Some (fl 9.4%Q).
Proof.
  split_and!.
  - exact (proj1 (proj1 (proj2 (transformProduct_defaults_rounded
                                  (mkProduct (Some "0003") None None None None))) eq_refl)).
  - apply (proj2 (proj2 (proj2 (proj2
             (transformProduct_defaults_rounded direct_serving_product))))).
    vm_compute. split; [discriminate | exact I].
  - rewrite (proj1 (proj1 (proj2 (proj2
               (transformProduct_defaults_rounded quarter_product))))).
    by vm_compute.
  - rewrite (proj1 (proj2 (proj1 (proj2 (proj2
               (transformProduct_defaults_rounded quarter_product)))))).
    by vm_compute.
Defined.

(** ** The serving scaler *)

Section Scaler.
Local Open Scope Q_scope.

Lemma or_num_Some_truthy (x b : num) : truthy x = true → or_num (Some x) b = x.
Proof. simpl. by intros ->. Qed.







(** The scaler computes in doubles: 15 g of the curated chicken breast, at
    31 g per 100 g, give 4.6, where the exact product 4.65 would round to
    4.7. *)
Example calculateProtein_chicken_15 :
  calculateProtein (Some curated_chicken_breast) 15 = fl 4.6%Q
  ∧ fmul 31 (fdiv 15 100) = (5235434566818201 # 1125899906842624)%Q
  ∧ (fmul 31 (fdiv 15 100) < 4.65)%Q.
Proof. by vm_compute. Qed.

End Scaler.

(** ** The label resolver *)

Section Resolver.
Implicit Types (predictions : list prediction) (results : list foodItem).

Lemma fuzzyMatch_loop_surviving results predictions :
  fuzzyMatch_loop results predictions = fuzzyMatch_loop results (surviving predictions).
Proof.
  revert results. unfold surviving.
  induction predictions as [|pred l IH]; intros results; [done |].
  simpl. case_decide as Hlow.
  - rewrite filter_cons_False by (intros ?; lra). apply IH.
  - rewrite filter_cons_True by lra. simpl.
    rewrite decide_False by done. apply IH.
Qed.

Lemma fuzzyMatchFoods_surviving predictions :
  fuzzyMatchFoods predictions = fuzzyMatchFoods (surviving predictions).
Proof. unfold fuzzyMatchFoods. by rewrite fuzzyMatch_loop_surviving. Qed.

Lemma surviving_idemp predictions : surviving (surviving predictions) = surviving predictions.
Proof.
  unfold surviving. induction predictions as [|pred l IH]; [done |].
  rewrite filter_cons. case_decide; [| done].
  rewrite filter_cons_True by done. by rewrite IH.
Qed.

Lemma directResults_surviving predictions :
  directResults predictions = directResults (surviving predictions).
Proof. unfold directResults. fold (surviving predictions). by rewrite surviving_idemp. Qed.

Lemma surviving_below predictions :
  Forall (λ pred, (probability pred < MIN_CONFIDENCE)%Q) predictions →
  surviving predictions = [].
Proof.
  intros Hall. apply filter_none.
  eapply Forall_impl; [exact Hall |]. simpl. intros pred Hlt Hge. lra.
Qed.

Lemma resolvePredictions_surviving predictions :
  resolvePredictions predictions = resolvePredictions (surviving predictions).
Proof.
  unfold resolvePredictions.
  rewrite <- directResults_surviving, <- fuzzyMatchFoods_surviving.
  destruct (directResults predictions) as [|r rs] eqn:Hd; [| done].
  simpl. destruct predictions as [|pred l]; [done |].
  destruct (surviving (pred :: l)) as [|pred' l'] eqn:Hs; [| done].
  simpl. by rewrite fuzzyMatchFoods_surviving, Hs.
Qed.

Lemma resolvePredictions_cases predictions :
  resolvePredictions predictions
  = match directResults predictions with
    | [] => fuzzyMatchFoods predictions
    | _ :: _ => directResults predictions
    end.
Proof.
  unfold resolvePredictions.
  destruct (directResults predictions) as [|r rs] eqn:Hd; [| done].
  simpl. destruct predictions as [|pred l]; done.
Qed.

Lemma mapToFoodItem_entries_direct entries pred lowered r :
  mapToFoodItem_entries entries pred lowered = Some r →
  ∃ key value, (key, value) ∈ entries
               ∧ id r = Some ("recognized-" +:+ key)
               ∧ name r = fst value ∧ protein r = snd value.
Proof.
  induction entries as [|[key value] rest IH]; simpl; [done |].
  destruct (includes lowered (toLowerCase key)).
  - intros [= <-]. exists key, value. split; [by left | done].
  - intros (k & v & Hin & ?)%IH. exists k, v. split; [by right | done].
Qed.

Lemma directResults_elem predictions r :
  r ∈ directResults predictions ↔
  ∃ pred, pred ∈ predictions ∧ (MIN_CONFIDENCE <= probability pred)%Q
          ∧ mapToFoodItem pred = Some r.
Proof.
  unfold directResults. rewrite list_elem_of_omap.
  split.
  - intros (pred & [Hge Hin]%list_elem_of_filter & Hmap). eauto.
  - intros (pred & Hin & Hge & Hmap). exists pred.
    split; [by apply list_elem_of_filter | done].
Qed.






End Resolver.

(** C7: the pairs below the confidence threshold are discarded before the
    direct mapping and before the fuzzy matching, so the resolver's result
    (and each path's) depends on the surviving pairs only; when every pair is
    below the threshold, neither path emits a record and the result is
    empty. *)
Theorem resolvePredictions_below_threshold (predictions : list prediction) :
  (directResults predictions = directResults (surviving predictions)
   ∧ fuzzyMatchFoods predictions = fuzzyMatchFoods (surviving predictions)
   ∧ resolvePredictions predictions = resolvePredictions (surviving predictions))
  ∧ (Forall (λ pred, (probability pred < MIN_CONFIDENCE)%Q) predictions →
       directResults predictions = []
       ∧ fuzzyMatchFoods predictions = []
       ∧ resolvePredictions predictions = []
       ∧ recognizeFood (Ok (λ _, Ok predictions)) = Ok []).
Proof.
  split.
  - split_and!.
    + apply directResults_surviving.
    + apply fuzzyMatchFoods_surviving.
    + apply resolvePredictions_surviving.
  - intros Hall%surviving_below.
    assert (resolvePredictions predictions = []) as Hres
      by by rewrite resolvePredictions_surviving, Hall.
    split_and!.
    + by rewrite directResults_surviving, Hall.
    + by rewrite fuzzyMatchFoods_surviving, Hall.
    + done.
    + unfold recognizeFood. simpl. by rewrite Hres.
Qed.

Lemma resolvePredictions_below_threshold_witness :
  resolvePredictions [mkPrediction "pizza, pizza pie" 0.2%Q; mkPrediction "bee" 0.1%Q] = [].
Proof.
  apply (proj2 (resolvePredictions_below_threshold
                  [mkPrediction "pizza, pizza pie" 0.2%Q; mkPrediction "bee" 0.1%Q])).
  repeat constructor.
Defined.

(** C6: the fuzzy matching runs only when the direct mapping emitted nothing
    for all the surviving pairs.  When some surviving pair has a direct
    mapping, the result is the direct mappings of the surviving pairs, in
    order, and every record in it is a direct-mapping record of a surviving
    pair; the pairs without a direct mapping contribute nothing.  When no
    surviving pair has one, the result is that of the fuzzy matching. *)
Theorem resolvePredictions_all_or_nothing (predictions : list prediction) :
  ((∃ pred item, pred ∈ predictions ∧ (MIN_CONFIDENCE <= probability pred)%Q
                 ∧ mapToFoodItem pred = Some item) →
     resolvePredictions predictions = omap mapToFoodItem (surviving predictions)
     ∧ ∀ r, r ∈ resolvePredictions predictions →
            direct_record r
            ∧ ∃ pred, pred ∈ predictions ∧ (MIN_CONFIDENCE <= probability pred)%Q
                      ∧ mapToFoodItem pred = Some r)
  ∧ (directResults predictions = [] →
       resolvePredictions predictions = fuzzyMatchFoods predictions).
Proof.
  split.
  - intros (pred & item & Hin & Hge & Hmap).
    assert (item ∈ directResults predictions) as Hitem
      by (apply directResults_elem; eauto).
    assert (resolvePredictions predictions = directResults predictions) as Hres.
    { rewrite resolvePredictions_cases.
      destruct (directResults predictions); [by apply elem_of_nil in Hitem | done]. }
    split; [exact Hres |].
    intros r. rewrite Hres. intros Hr.
    apply directResults_elem in Hr as (pred' & Hin' & Hge' & Hmap').
    split; [| eauto].
    by eapply mapToFoodItem_entries_direct.
  - intros Hnone. by rewrite resolvePredictions_cases, Hnone.
Qed.

Lemma resolvePredictions_all_or_nothing_witness :
  resolvePredictions pizza_and_bee = omap mapToFoodItem [mkPrediction "pizza, pizza pie" 0.5%Q]
  ∧ fuzzyMatchFoods [mkPrediction "bee" 0.4%Q] ≠ [].
Proof.
  split; [| discriminate].
  apply (proj1 (resolvePredictions_all_or_nothing pizza_and_bee)).
  eexists _, _. split_and!; [left | | reflexivity].
  vm_compute. discriminate.
Defined.



(** The classifier's answer for a cheeseburger on a plate resolves to the
    one mapped record, with confidence 82. *)
Example resolvePredictions_cheeseburger :
  (λ r, (id r, name r, confidence r))
    <$> resolvePredictions [mkPrediction "cheeseburger" 0.82%Q; mkPrediction "plate" 0.10%Q]
  = [(Some "recognized-cheeseburger", "Cheeseburger", Some (inject_Z 82))].
Proof. reflexivity. Qed.

(** ** Identifiers within one result set *)

Lemma searchCommonFoods_NoDup (query : string) : NoDup (id <$> searchCommonFoods query).
Proof.
  unfold searchCommonFoods. apply NoDup_alt. intros i j x.
  rewrite !list_lookup_fmap, !list_lookup_imap.
  destruct (_ !! i) as [fi|]; [| done]. destruct (_ !! j) as [fj|]; [| done].
  simpl. intros [= <-] [= Heq]. by simplify_eq.
Qed.

Lemma searchFoods_NoDup (fetch : fetcher) (query : string) :
  NoDup (id <$> searchFoods fetch query).
Proof.
  unfold searchFoods.
  destruct (fetch (StructuredSearch query)) as [[[] st [data|e]]|e]; simpl;
    try apply NoDup_nil_2.
  destruct (fetch (TextSearch query)) as [[[] st' [data'|e']]|e']; simpl;
    try apply NoDup_nil_2; apply mergeProducts_NoDup.
Qed.

(** The claim that every result set has pairwise distinct identifiers fails
    on the label resolver, on its direct path ([two_crabs]) and on its
    fuzzy path ([bee_and_egg]), and on the combiner when a remote code reads
    like a curated identifier ([colliding_product]). *)
Lemma result_set_ids_repeat :
  (id <$> resolvePredictions two_crabs
     = [Some "recognized-crab"; Some "recognized-crab"]
   ∧ ¬ NoDup (id <$> resolvePredictions two_crabs))
  ∧ (id <$> resolvePredictions bee_and_egg = [Some "common-0"; Some "common-0"]
     ∧ ¬ NoDup (id <$> resolvePredictions bee_and_egg))
  ∧ ∃ combined,
      searchAllFoods (remoteSearch (fetch_of (ok_response [colliding_product])
                                             (ok_response []))) "chicken"
      = Ok combined
      ∧ id <$> combined = [Some "common-0"; Some "common-0"]
      ∧ ¬ NoDup (id <$> combined).
Proof.
  assert (∀ x : option string, ¬ NoDup [x; x]) as Hrep.
  { intros x [Hnotin _]%NoDup_cons. apply Hnotin. by left. }
  split_and!.
  - reflexivity.
  - apply Hrep.
  - reflexivity.
  - apply Hrep.
  - eexists. split_and!; [vm_compute; reflexivity | reflexivity | apply Hrep].
Qed.

(** C9 (amended): the merger's output, the remote search's output and the
    curated matches of a query each have pairwise distinct identifiers, and
    so has the combiner's output whenever no remote identifier equals the
    identifier of a curated match. *)
Theorem result_set_ids_distinct :
  (∀ A B, NoDup (id <$> mergeProducts A B))
  ∧ (∀ fetch query, NoDup (id <$> searchFoods fetch query))
  ∧ (∀ query, NoDup (id <$> searchCommonFoods query))
  ∧ (∀ fetch query combined,
       searchAllFoods (remoteSearch fetch) query = Ok combined →
       (∀ r, r ∈ searchFoods fetch query → id r ∉ id <$> searchCommonFoods query) →
       NoDup (id <$> combined)).
Proof.
  split_and!.
  - apply mergeProducts_NoDup.
  - apply searchFoods_NoDup.
  - apply searchCommonFoods_NoDup.
  - intros fetch query combined. rewrite searchAllFoods_eq. intros [= <-] Hfresh.
    rewrite fmap_app. apply NoDup_app. split_and!.
    + apply searchCommonFoods_NoDup.
    + intros x Hx (r & -> & [_ Hr]%list_elem_of_filter)%list_elem_of_fmap.
      by apply (Hfresh r).
    + eapply sublist_NoDup; [apply searchFoods_NoDup |].
      apply fmap_sublist, sublist_filter.
Qed.

Lemma result_set_ids_distinct_witness :
  ∃ combined,
    searchAllFoods (remoteSearch (fetch_of (ok_response [x123_first]) (ok_response [])))
                   "chicken" = Ok combined
    ∧ NoDup (id <$> combined).
Proof.
  assert (searchFoods (fetch_of (ok_response [x123_first]) (ok_response [])) "chicken"
          = [transformProduct x123_first]) as Hremote by (by vm_compute).
  eexists. split; [vm_compute; reflexivity |].
  apply (proj2 (proj2 (proj2 result_set_ids_distinct))
           (fetch_of (ok_response [x123_first]) (ok_response [])) "chicken").
  - by vm_compute.
  - intros r Hr Hid. rewrite Hremote in Hr.
    apply list_elem_of_singleton in Hr as ->.
    apply list_elem_of_singleton in Hid. discriminate Hid.
Defined.

(** * Properties of the further code *)

(** ** Substrings *)

Section Substrings.
Implicit Types (s t u sub : string) (c : ascii).

Lemma string_app_cons c s t : String c s +:+ t = String c (s +:+ t).
Proof. reflexivity. Qed.

Lemma string_app_assoc s t u : (s +:+ t) +:+ u = s +:+ t +:+ u.
Proof.
  induction s as [|c s IH]; [done |].
  by rewrite !string_app_cons, IH.
Qed.

Lemma prefix_spec sub s : String.prefix sub s = true ↔ ∃ t, s = sub +:+ t.
Proof.
  revert s. induction sub as [|c sub IH]; intros s.
  - split; [by exists s | by destruct s].
  - destruct s as [|d s]; [split; [done | by intros [t ?]] |].
    cbn [String.prefix]. destruct (ascii_dec c d) as [<-|Hne].
    + rewrite IH. split; intros [t Ht]; exists t.
      * by rewrite string_app_cons, Ht.
      * rewrite string_app_cons in Ht. by injection Ht.
    + split; [done |]. intros [t Ht].
      rewrite string_app_cons in Ht. injection Ht. congruence.
Qed.

Lemma includes_spec s sub : includes s sub = true ↔ ∃ a b, s = a +:+ sub +:+ b.
Proof.
  induction s as [|c s IH].
  - cbn [includes]. rewrite orb_false_r, prefix_spec. split.
    + intros [t Ht]. by exists "", t.
    + intros (a & b & Hs). destruct a as [|d a]; [by exists b | done].
  - cbn [includes]. rewrite orb_true_iff, prefix_spec, IH. split.
    + intros [[t Ht] | (a & b & Hs)].
      * by exists "", t.
      * exists (String c a), b. by rewrite string_app_cons, Hs.
    + intros (a & b & Hs). destruct a as [|d a].
      * left. by exists b.
      * right. exists a, b. rewrite string_app_cons in Hs. by injection Hs.
Qed.

Lemma includes_empty s : includes s "" = true.
Proof. apply includes_spec. by exists "", s. Qed.

Lemma includes_trans s t u :
  includes s t = true → includes t u = true → includes s u = true.
Proof.
  rewrite !includes_spec. intros (a & b & ->) (c & d & ->).
  exists (a +:+ c), (d +:+ b). by rewrite !string_app_assoc.
Qed.

End Substrings.

Lemma filter_sublist_impl {A} (P Q : A → Prop)
    `{!∀ x, Decision (P x)} `{!∀ x, Decision (Q x)} (l : list A) :
  (∀ x, P x → Q x) → filter P l `sublist_of` filter Q l.
Proof.
  intros HPQ. induction l as [|x l IH]; [done |].
  rewrite !filter_cons. destruct (decide (P x)) as [HP|HP].
  - rewrite decide_True by auto. by apply sublist_skip.
  - case_decide; [by apply sublist_cons | done].
Qed.

Lemma filter_all {A} (P : A → Prop) `{!∀ x, Decision (P x)} (l : list A) :
  Forall P l → filter P l = l.
Proof.
  induction 1 as [|x l Hx _ IH]; [done |].
  by rewrite filter_cons_True, IH.
Qed.

(** ** The curated search *)

Lemma searchCommonFoods_names query :
  name <$> searchCommonFoods query
  = name <$> filter (λ food, includes (toLowerCase (name food)) (toLowerCase query) = true)
                    COMMON_FOODS.
Proof.
  rewrite <- searchCommonFoods_erase, <- list_fmap_compose.
  apply list_fmap_ext. by intros _ food _.
Qed.

(** X1: typing more never adds curated matches.  When the lower-cased
    [query] occurs inside the lower-cased [longer] query, the names matched
    by [longer] are, in order, among the names matched by [query]. *)
Theorem searchCommonFoods_narrows (query longer : string) :
  includes (toLowerCase longer) (toLowerCase query) = true →
  name <$> searchCommonFoods longer `sublist_of` name <$> searchCommonFoods query.
Proof.
  intros Hsub. rewrite !searchCommonFoods_names.
  apply fmap_sublist, filter_sublist_impl.
  intros food Hfood. by eapply includes_trans.
Qed.

Lemma searchCommonFoods_narrows_witness :
  name <$> searchCommonFoods "Chicken B" `sublist_of` name <$> searchCommonFoods "ck".
Proof. apply searchCommonFoods_narrows. reflexivity. Defined.

(** X2: the empty query matches every curated entry: the result is the
    whole table, in table order, and the entry at position [i] carries the
    identifier common-[i]. *)
Theorem searchCommonFoods_empty_query :
  (λ food, with_id food None) <$> searchCommonFoods "" = COMMON_FOODS
  ∧ ∀ i food, COMMON_FOODS !! i = Some food →
              searchCommonFoods "" !! i = Some (with_id food (Some ("common-" +:+ pretty i))).
Proof.
  assert (filter (λ food, includes (toLowerCase (name food)) (toLowerCase "") = true)
                 COMMON_FOODS = COMMON_FOODS) as Hall.
  { apply filter_all, Forall_forall. intros food _. apply includes_empty. }
  split.
  - by rewrite searchCommonFoods_erase, Hall.
  - intros i food Hi. unfold searchCommonFoods.
    rewrite list_lookup_imap, Hall, Hi. done.
Qed.

Lemma searchCommonFoods_empty_query_witness :
  id <$> searchCommonFoods "" !! 4%nat = Some (Some "common-4").
Proof.
  rewrite (proj2 searchCommonFoods_empty_query 4%nat _ eq_refl). reflexivity.
Defined.

(** ** The remote search, continued *)

Lemma uniqueProducts_from_app (seen : gset (option string)) (A B : list product) :
  uniqueProducts_from seen (A ++ B)
  = uniqueProducts_from seen A
    ++ uniqueProducts_from (seen ∪ list_to_set (code <$> A)) B.
Proof.
  revert seen. induction A as [|q A IH]; intros seen.
  - simpl. f_equal. apply set_eq. intros x.
    rewrite elem_of_union, elem_of_empty. tauto.
  - cbn [app uniqueProducts_from]. case_decide as Hq.
    + rewrite IH. do 2 f_equal. apply set_eq. intros x.
      rewrite fmap_cons, list_to_set_cons, !elem_of_union, elem_of_singleton.
      split; [tauto |]. intros [? | [-> | ?]]; tauto.
    + rewrite IH. cbn [app]. do 3 f_equal. apply set_eq. intros x.
      rewrite fmap_cons, list_to_set_cons, !elem_of_union. tauto.
Qed.

Lemma uniqueProducts_from_known (seen : gset (option string)) (B : list product) :
  Forall (λ b, code b ∈ seen) B → uniqueProducts_from seen B = [].
Proof.
  induction 1 as [|b B Hb _ IH]; [done |].
  simpl. by rewrite decide_True.
Qed.

(** X3: a second array that only repeats identity keys of the first adds
    nothing: the merge equals the merge of the first array alone.  In
    particular a free-text answer equal to the structured answer changes
    nothing. *)
Theorem mergeProducts_absorbs_known_keys (A B : list product) :
  (Forall (λ b, code b ∈ code <$> A) B → mergeProducts A B = mergeProducts A [])
  ∧ mergeProducts A A = mergeProducts A [].
Proof.
  assert (∀ B', Forall (λ b, code b ∈ code <$> A) B' →
                mergeProducts A B' = mergeProducts A []) as Habs.
  { intros B' Hknown. unfold mergeProducts, uniqueProducts.
    rewrite app_nil_r, uniqueProducts_from_app.
    rewrite (uniqueProducts_from_known _ B'), app_nil_r; [done |].
    eapply Forall_impl; [exact Hknown |]. simpl. intros b Hb.
    apply elem_of_union_r, elem_of_list_to_set, Hb. }
  split; [apply Habs |].
  apply Habs, Forall_forall. intros a Ha. by apply list_elem_of_fmap_2.
Qed.

Lemma mergeProducts_absorbs_known_keys_witness :
  mergeProducts [x123_first] [x123_second] = mergeProducts [x123_first] [].
Proof.
  apply (proj1 (mergeProducts_absorbs_known_keys [x123_first] [x123_second])).
  repeat constructor.
Defined.

Lemma searchFoods_cases (fetch : fetcher) (query : string) :
  searchFoods fetch query = [] ∨ ∃ A B, searchFoods fetch query = mergeProducts A B.
Proof.
  unfold searchFoods.
  destruct (fetch (StructuredSearch query)) as [[[] st [data|e]]|e]; simpl; auto.
  destruct (fetch (TextSearch query)) as [[[] st' [data'|e']]|e']; simpl; eauto.
Qed.

(** X4: the remote search never returns a record without protein: every
    record has a positive per-100 figure with at most one decimal place, a
    non-empty name, the unit "g" and the source tag of the remote
    catalogue, and no confidence. *)
Theorem searchFoods_records_positive (fetch : fetcher) (query : string) :
  Forall (λ r, (0 < protein r)%Q ∧ one_decimal (protein r) ∧ name r ≠ ""
               ∧ servingUnit r = "g" ∧ source r = openfoodfacts ∧ confidence r = None)
         (searchFoods fetch query).
Proof.
  destruct (searchFoods_cases fetch query) as [-> | (A & B & ->)]; [constructor |].
  apply Forall_forall. intros r (p & -> & _ & Hpos)%mergeProducts_elem.
  split_and!; [done | apply round1_one_decimal | apply name_transformProduct | done..].
Qed.

(** ** The barcode lookup *)

(** X5: the barcode lookup returns a record exactly when the request
    succeeds, the body parses, its status is 1 and it carries a product; the
    record is then the normalisation of that product.  Every other outcome,
    a rejected request included, gives [null]. *)
Theorem getFoodByBarcode_found_iff (fetch : Barcode.fetcher) (barcode : string)
    (r : foodItem) :
  Barcode.getFoodByBarcode fetch barcode = Some r
  ↔ ∃ response data p,
      fetch barcode = Ok response ∧ Barcode.ok response = true
      ∧ Barcode.json response = Ok data
      ∧ Barcode.status data = Some 1%Z ∧ Barcode.product data = Some p
      ∧ r = transformProduct p.
Proof.
  unfold Barcode.getFoodByBarcode. split.
  - destruct (fetch barcode) as [[[] st [[[[|[]|]|] [p|]]|e]]|e] eqn:Hf;
      simpl; try discriminate.
    intros [= <-]. by eexists _, _, p.
  - intros (response & data & p & -> & Hok & Hjson & Hst & Hp & ->).
    destruct response as [ok' st js], data as [st' p']; simpl in *.
    by subst.
Qed.

Lemma getFoodByBarcode_found_iff_witness :
  Barcode.getFoodByBarcode (barcode_found x123_first) "X123"
  = Some (transformProduct x123_first).
Proof.
  apply getFoodByBarcode_found_iff.
  by eexists _, _, x123_first.
Defined.

(** X6: the barcode lookup does not filter on protein.  A product without
    a nutrient map, which the search drops, is returned by the lookup with a
    per-100 protein of 0. *)
Theorem getFoodByBarcode_keeps_zero_protein (p : product) (barcode : string) :
  nutriments p = None →
  mergeProducts [p] [] = []
  ∧ ∃ r, Barcode.getFoodByBarcode (barcode_found p) barcode = Some r
         ∧ (protein r == 0)%Q.
Proof.
  intros Hn. split.
  - unfold mergeProducts, uniqueProducts. simpl.
    rewrite decide_False by apply not_elem_of_empty. simpl.
    rewrite filter_cons_False, filter_nil; [done |].
    unfold transformProduct; simpl. rewrite Hn. by vm_compute.
  - eexists. split; [reflexivity |].
    unfold transformProduct; simpl. by rewrite Hn.
Qed.

Lemma getFoodByBarcode_keeps_zero_protein_witness :
  mergeProducts [bare_product] [] = []
  ∧ ∃ r, Barcode.getFoodByBarcode (barcode_found bare_product) "0004" = Some r
         ∧ (protein r == 0)%Q.
Proof. apply (getFoodByBarcode_keeps_zero_protein bare_product "0004"). reflexivity. Defined.

(** ** The label resolver, continued *)

Section ResolverMore.
Implicit Types (predictions : list prediction) (pred : prediction) (r : foodItem).

Lemma mapToFoodItem_entries_first entries pred lowered r :
  mapToFoodItem_entries entries pred lowered = Some r →
  ∃ pre key value post,
    entries = pre ++ (key, value) :: post
    ∧ includes lowered (toLowerCase key) = true
    ∧ Forall (λ kv, includes lowered (toLowerCase kv.1) = false) pre
    ∧ id r = Some ("recognized-" +:+ key)
    ∧ name r = value.1 ∧ protein r = value.2
    ∧ servingSize r = 100%Q ∧ source r = recognition
    ∧ confidence r = Some (inject_Z (Math_round (probability pred * 100)%Q))
    ∧ originalClass r = Some (className pred).
Proof.
  induction entries as [|[key value] rest IH]; simpl; [done |].
  destruct (includes lowered (toLowerCase key)) eqn:Hinc.
  - intros [= <-]. exists [], key, value, rest. by split_and!.
  - intros Hr. destruct (IH Hr) as (pre & k & v & post & -> & ? & ? & ?).
    exists ((key, value) :: pre), k, v, post.
    split; [done |]. split; [done |]. split; [by constructor | done].
Qed.

Lemma mapToFoodItem_entries_None entries pred lowered :
  mapToFoodItem_entries entries pred lowered = None
  ↔ Forall (λ kv, includes lowered (toLowerCase kv.1) = false) entries.
Proof.
  induction entries as [|[key value] rest IH]; simpl.
  - split; [constructor | done].
  - rewrite Forall_cons. simpl.
    destruct (includes lowered (toLowerCase key)); [split; [done | by intros [? _]] |].
    rewrite IH. tauto.
Qed.

Lemma mapToFoodItem_entries_selectable entries earlier pred lowered r :
  Forall (λ k, includes lowered (toLowerCase k) = false) earlier →
  mapToFoodItem_entries entries pred lowered = Some r →
  ∃ key, key ∈ selectable earlier entries ∧ id r = Some ("recognized-" +:+ key).
Proof.
  revert earlier. induction entries as [|[key value] rest IH]; intros earlier Hearlier;
    simpl; [done |].
  destruct (includes lowered (toLowerCase key)) eqn:Hinc.
  - intros [= <-]. exists key. split; [| done].
    destruct (existsb _ earlier) eqn:Hex; [exfalso | by left].
    apply existsb_exists in Hex as (k & Hk & Hsub).
    apply list_elem_of_In in Hk.
    pose proof (proj1 (Forall_forall _ _) Hearlier k Hk) as Hno. simpl in Hno.
    by rewrite (includes_trans _ _ _ Hinc Hsub) in Hno.
  - intros Hr. destruct (IH (key :: earlier)) as (k & Hk & Hid); [by constructor | done |].
    exists k. split; [| done].
    destruct (existsb _ earlier); [done | by right].
Qed.

Lemma confidence_bounds pred :
  (MIN_CONFIDENCE <= probability pred)%Q →
  (30 ≤ Math_round (probability pred * 100)%Q)%Z
  ∧ ((probability pred <= 1)%Q → (Math_round (probability pred * 100)%Q ≤ 100)%Z).
Proof.
  unfold MIN_CONFIDENCE. intros Hge. split.
  - change 30%Z with (Math_round 30%Q). apply Math_round_mono. lra.
  - intros Hle. trans (Math_round 100%Q); [apply Math_round_mono; lra | done].
Qed.

Lemma fuzzyMatch_keywords_elem pred keywords r :
  r ∈ fuzzyMatch_keywords pred keywords →
  ∃ keyword bestMatch rest,
    keyword ∈ keywords ∧ searchCommonFoods keyword = bestMatch :: rest
    ∧ id r = id bestMatch ∧ name r = name bestMatch ∧ protein r = protein bestMatch
    ∧ servingSize r = servingSize bestMatch ∧ servingUnit r = servingUnit bestMatch
    ∧ source r = recognition
    ∧ confidence r = Some (inject_Z (Math_round (probability pred * 100)%Q))
    ∧ originalClass r = Some (className pred).
Proof.
  induction keywords as [|keyword kws IH]; simpl; [by intros ?%elem_of_nil |].
  destruct (searchCommonFoods keyword) as [|bestMatch rest] eqn:Hs.
  - intros Hr. destruct (IH Hr) as (k & b & rs & Hk & ?).
    exists k, b, rs. split; [by right | done].
  - intros ->%list_elem_of_singleton.
    exists keyword, bestMatch, rest. split_and!; [by left | done..].
Qed.

Lemma fuzzyMatch_loop_elem results predictions r :
  r ∈ fuzzyMatch_loop results predictions →
  r ∈ results
  ∨ ∃ pred, pred ∈ predictions ∧ (MIN_CONFIDENCE <= probability pred)%Q
            ∧ r ∈ fuzzyMatch_keywords pred (keywords_of pred).
Proof.
  revert results. induction predictions as [|pred l IH]; intros results; simpl; [auto |].
  case_decide as Hlow.
  - intros [?|(p & Hp & ?)]%IH; [by left |].
    right. exists p. split; [by right | done].
  - intros [[?|?]%elem_of_app | (p & Hp & ?)]%IH; [by left | |].
    + right. exists pred. split_and!; [by left | lra | done].
    + right. exists p. split; [by right | done].
Qed.

Lemma fuzzyMatchFoods_elem predictions r :
  r ∈ fuzzyMatchFoods predictions →
  ∃ pred, pred ∈ predictions ∧ (MIN_CONFIDENCE <= probability pred)%Q
          ∧ r ∈ fuzzyMatch_keywords pred (keywords_of pred).
Proof.
  unfold fuzzyMatchFoods. intros Hr.
  assert (r ∈ fuzzyMatch_loop [] predictions) as Hloop
    by (eapply elem_of_sublist; [exact Hr | apply sublist_take]).
  apply fuzzyMatch_loop_elem in Hloop as [?%elem_of_nil | ?]; done.
Qed.

Lemma resolvePredictions_elem predictions r :
  r ∈ resolvePredictions predictions →
  ∃ pred, pred ∈ predictions ∧ (MIN_CONFIDENCE <= probability pred)%Q
          ∧ (mapToFoodItem pred = Some r
             ∨ r ∈ fuzzyMatch_keywords pred (keywords_of pred)).
Proof.
  rewrite resolvePredictions_cases.
  destruct (directResults predictions) as [|r0 rs] eqn:Hd.
  - intros (pred & ? & ? & ?)%fuzzyMatchFoods_elem. eauto 6.
  - rewrite <- Hd. intros (pred & ? & ? & ?)%directResults_elem. eauto 6.
Qed.

End ResolverMore.

(** X7: the direct mapping takes the first key, in table order, whose
    lower-cased text occurs in the lower-cased label, and builds the record
    from that entry (identifier recognized-[key], the entry's name and
    protein, serving size 100, the label as [originalClass]); it gives
    [null] exactly when the label contains no key. *)
Theorem mapToFoodItem_first_key_wins (pred : prediction) :
  (mapToFoodItem pred = None
   ↔ Forall (λ kv, includes (toLowerCase (className pred)) (toLowerCase kv.1) = false)
            FOOD_CLASS_MAPPINGS)
  ∧ ∀ r, mapToFoodItem pred = Some r →
      ∃ pre key value post,
        FOOD_CLASS_MAPPINGS = pre ++ (key, value) :: post
        ∧ includes (toLowerCase (className pred)) (toLowerCase key) = true
        ∧ Forall (λ kv, includes (toLowerCase (className pred)) (toLowerCase kv.1) = false)
                 pre
        ∧ id r = Some ("recognized-" +:+ key)
        ∧ name r = value.1 ∧ protein r = value.2
        ∧ servingSize r = 100%Q ∧ source r = recognition
        ∧ originalClass r = Some (className pred).
Proof.
  split; [apply mapToFoodItem_entries_None |].
  intros r Hr.
  destruct (mapToFoodItem_entries_first _ _ _ _ Hr)
    as (pre & key & value & post & ? & ? & ? & ? & ? & ? & ? & ? & _ & ?).
  exists pre, key, value, post. by split_and!.
Qed.

Lemma mapToFoodItem_first_key_wins_witness :
  ∃ r, mapToFoodItem (mkPrediction "cheeseburger" 0.82%Q) = Some r
       ∧ servingSize r = 100%Q ∧ source r = recognition
       ∧ originalClass r = Some "cheeseburger".
Proof.
  eexists. split; [reflexivity |].
  destruct (proj2 (mapToFoodItem_first_key_wins (mkPrediction "cheeseburger" 0.82%Q))
                  _ eq_refl)
    as (pre & key & value & post & _ & _ & _ & _ & _ & _ & Hsize & Hsource & Hclass).
  exact (conj Hsize (conj Hsource Hclass)).
Defined.

(** X8: two entries of the mapping table can never be selected: every
    label that contains "scrambled eggs" contains the earlier key "eggs",
    and every label that contains "cottage cheese" contains the earlier key
    "cheese"; so no label resolves to recognized-scrambled eggs or to
    recognized-cottage cheese. *)
Theorem mapToFoodItem_shadowed_keys (pred : prediction) (r : foodItem) :
  mapToFoodItem pred = Some r →
  id r ≠ Some "recognized-scrambled eggs" ∧ id r ≠ Some "recognized-cottage cheese".
Proof.
  intros Hr.
  destruct (mapToFoodItem_entries_selectable
              FOOD_CLASS_MAPPINGS [] pred (toLowerCase (className pred)) r)
    as (key & Hkey & Hid); [constructor | exact Hr |].
  rewrite Hid.
  assert ("scrambled eggs" ∉ selectable [] FOOD_CLASS_MAPPINGS) as Hse
    by compute_done.
  assert ("cottage cheese" ∉ selectable [] FOOD_CLASS_MAPPINGS) as Hcc
    by compute_done.
  split; intros [= Heq]; change ("" +:+ key) with key in Heq; congruence.
Qed.

Lemma mapToFoodItem_shadowed_keys_witness :
  ∃ r, mapToFoodItem cottage_cheese_label = Some r
       ∧ id r = Some "recognized-cheese"
       ∧ id r ≠ Some "recognized-cottage cheese".
Proof.
  eexists. split; [reflexivity |]. split; [reflexivity |].
  apply (proj2 (mapToFoodItem_shadowed_keys cottage_cheese_label _ eq_refl)).
Defined.

(** X9: every record the resolver returns, on either path, is tagged as
    recognized and carries the rounded percentage of a prediction that
    passed the threshold: its confidence is an integer of at least 30, and
    at most 100 when the prediction's probability is at most 1. *)
Theorem resolvePredictions_confidence (predictions : list prediction) :
  Forall (λ r, source r = recognition
               ∧ ∃ pred, pred ∈ predictions
                   ∧ originalClass r = Some (className pred)
                   ∧ confidence r = Some (inject_Z (Math_round (probability pred * 100)%Q))
                   ∧ (30 ≤ Math_round (probability pred * 100)%Q)%Z
                   ∧ ((probability pred <= 1)%Q →
                        (Math_round (probability pred * 100)%Q ≤ 100)%Z))
         (resolvePredictions predictions).
Proof.
  apply Forall_forall. intros r (pred & Hin & Hge & Hfrom)%resolvePredictions_elem.
  destruct (confidence_bounds pred Hge) as [Hlow Hhigh].
  destruct Hfrom as [Hmap | Hfuzzy].
  - destruct (mapToFoodItem_entries_first _ _ _ _ Hmap)
      as (_ & _ & _ & _ & _ & _ & _ & _ & _ & _ & _ & Hsrc & Hconf & Hclass).
    split; [done |]. exists pred. by split_and!.
  - destruct (fuzzyMatch_keywords_elem _ _ _ Hfuzzy)
      as (_ & _ & _ & _ & _ & _ & _ & _ & _ & _ & Hsrc & Hconf & Hclass).
    split; [done |]. exists pred. by split_and!.
Qed.

Lemma resolvePredictions_confidence_witness :
  Forall (λ r, confidence r = Some (inject_Z 50) ∨ confidence r = Some (inject_Z 40))
         (resolvePredictions two_crabs).
Proof.
  eapply Forall_impl; [apply (resolvePredictions_confidence two_crabs) |].
  intros r [_ (pred & Hin & _ & Hconf & _)]. rewrite Hconf.
  apply list_elem_of_In in Hin. destruct Hin as [<- | [<- | []]]; [by left | by right].
Defined.

Lemma searchCommonFoods_head (keyword : string) (bestMatch : foodItem)
    (rest : list foodItem) :
  searchCommonFoods keyword = bestMatch :: rest →
  ∃ food others,
    filter (λ food, includes (toLowerCase (name food)) (toLowerCase keyword) = true)
           COMMON_FOODS = food :: others
    ∧ bestMatch = with_id food (Some "common-0").
Proof.
  unfold searchCommonFoods.
  destruct (filter _ COMMON_FOODS) as [|food others]; [done |].
  rewrite imap_cons. intros [= <- _]. by exists food, others.
Qed.

(** X10: every record of the fuzzy matching is the first curated entry, in
    table order, whose lower-cased name contains a keyword of a surviving
    label; it keeps that entry's name, protein and serving, is tagged as
    recognized, and its identifier is always common-0. *)
Theorem fuzzyMatchFoods_first_curated_match (predictions : list prediction) :
  Forall (λ r, id r = Some "common-0" ∧ source r = recognition
               ∧ ∃ pred keyword food others,
                   pred ∈ predictions ∧ (MIN_CONFIDENCE <= probability pred)%Q
                   ∧ keyword ∈ keywords_of pred
                   ∧ filter (λ food, includes (toLowerCase (name food))
                                              (toLowerCase keyword) = true)
                            COMMON_FOODS = food :: others
                   ∧ name r = name food ∧ protein r = protein food
                   ∧ servingSize r = servingSize food
                   ∧ servingUnit r = servingUnit food
                   ∧ originalClass r = Some (className pred))
         (fuzzyMatchFoods predictions).
Proof.
  apply Forall_forall. intros r (pred & Hin & Hge & Hfuzzy)%fuzzyMatchFoods_elem.
  destruct (fuzzyMatch_keywords_elem _ _ _ Hfuzzy)
    as (keyword & bestMatch & rest & Hkw & Hsearch & Hid & Hname & Hprot & Hsize
        & Hunit & Hsrc & _ & Hclass).
  destruct (searchCommonFoods_head _ _ _ Hsearch) as (food & others & Hfilter & ->).
  split_and!; [done | done |].
  exists pred, keyword, food, others. by split_and!.
Qed.

Lemma omap_originalClass_sublist (l : list prediction) :
  originalClass <$> omap mapToFoodItem l `sublist_of` (λ pred, Some (className pred)) <$> l.
Proof.
  induction l as [|pred l IH]; [done |]. csimpl.
  destruct (mapToFoodItem pred) as [r|] eqn:Hmap; csimpl.
  - destruct (mapToFoodItem_entries_first _ _ _ _ Hmap)
      as (_ & _ & _ & _ & _ & _ & _ & _ & _ & _ & _ & _ & _ & ->).
    by apply sublist_skip.
  - by apply sublist_cons.
Qed.

Lemma fuzzyMatch_keywords_originalClass (pred : prediction) (keywords : list string) :
  originalClass <$> fuzzyMatch_keywords pred keywords `sublist_of` [Some (className pred)].
Proof.
  induction keywords as [|keyword kws IH]; simpl; [apply sublist_nil_l |].
  by destruct (searchCommonFoods keyword).
Qed.

Lemma fuzzyMatch_loop_originalClass (results : list foodItem) (l : list prediction) :
  ∃ added, originalClass <$> fuzzyMatch_loop results l = (originalClass <$> results) ++ added
           ∧ added `sublist_of` (λ pred, Some (className pred)) <$> surviving l.
Proof.
  revert results. unfold surviving.
  induction l as [|pred l IH]; intros results; simpl.
  - exists []. by rewrite app_nil_r.
  - case_decide as Hlow.
    + rewrite filter_cons_False by (intros ?; lra). apply IH.
    + rewrite filter_cons_True by lra.
      destruct (IH (results ++ fuzzyMatch_keywords pred
                                 (trim <$> split_sep (toLowerCase (className pred)))))
        as (added & -> & Hadded).
      eexists. rewrite fmap_app, <- app_assoc. split; [done |].
      rewrite fmap_cons. change (?x :: ?l) with ([x] ++ l).
      apply sublist_app; [apply fuzzyMatch_keywords_originalClass | done].
Qed.

(** X11: the resolver returns at most one record per surviving prediction,
    in classifier order: the labels kept in [originalClass] are a
    subsequence of the labels of the surviving predictions. *)
Theorem resolvePredictions_in_classifier_order (predictions : list prediction) :
  originalClass <$> resolvePredictions predictions
  `sublist_of` (λ pred, Some (className pred)) <$> surviving predictions.
Proof.
  rewrite resolvePredictions_cases.
  destruct (directResults predictions) as [|r rs] eqn:Hd.
  - unfold fuzzyMatchFoods.
    destruct (fuzzyMatch_loop_originalClass [] predictions) as (added & Heq & Hadded).
    etrans; [apply fmap_sublist, sublist_take |]. by rewrite Heq.
  - rewrite <- Hd. apply omap_originalClass_sublist.
Qed.

(** ** The serving scaler, continued *)

Section ScalerMore.
Local Open Scope Q_scope.

Lemma divisor_nonneg (r : foodItem) :
  0 <= servingSize r → 0 <= or_num (Some (servingSize r)) 100.
Proof. intros Hss. apply or_num_nonneg; [done | discriminate]. Qed.

End ScalerMore.

(** X12: for a record with non-negative protein and a non-negative serving
    size (0 counts as 100), the scaled protein never decreases when the
    chosen size grows, and is non-negative for a non-negative chosen size. *)
Theorem calculateProtein_monotone (r : foodItem) (s1 s2 : num) :
  (0 <= protein r)%Q → (0 <= servingSize r)%Q →
  ((s1 <= s2)%Q → (calculateProtein (Some r) s1 <= calculateProtein (Some r) s2)%Q)
  ∧ ((0 <= s1)%Q → (0 <= calculateProtein (Some r) s1)%Q).
Proof.
  intros Hp Hss. pose proof (divisor_nonneg r Hss) as Hd. split.
  - intros Hs. unfold calculateProtein.
    by apply round1_mono, fmul_mono_r, fdiv_mono_l.
  - intros Hs. unfold calculateProtein.
    by apply round1_nonneg, fmul_nonneg, fdiv_nonneg.
Qed.

Lemma calculateProtein_monotone_witness :
  (calculateProtein (Some whey_record) 30 <= calculateProtein (Some whey_record) 45)%Q
  ∧ (0 <= calculateProtein (Some whey_record) 30)%Q.
Proof.
  destruct (calculateProtein_monotone whey_record 30%Q 45%Q) as [Hmono Hpos];
    [discriminate | discriminate |].
  split; [apply Hmono | apply Hpos]; discriminate.
Defined.

(** X13: selecting a food and adding it hands over an entry for the
    selected meal with the food's name and source, the food's serving size
    (100 when it has none) and, for a serving size that is a double, the
    food's protein rounded to one decimal; when the serving input is changed
    to [v] in between, the entry's size is [max 1 v] and its protein is the
    scaler's result for that size. *)
Theorem handleAdd_after_select (food : foodItem) (st : FoodSearch.state) (v : num) :
  (∃ entry,
     handleAdd (handleSelectFood food st) = Some (FoodSearch.selectedMeal st, entry)
     ∧ name entry = name food ∧ source entry = source food
     ∧ servingSize entry = or_num (Some (servingSize food)) 100%Q
     ∧ (is_double (servingSize food) → protein entry = round1 (protein food)))
  ∧ (∃ entry,
       handleAdd (handleServingChange v (handleSelectFood food st))
       = Some (FoodSearch.selectedMeal st, entry)
       ∧ name entry = name food ∧ source entry = source food
       ∧ servingSize entry = Qmax 1 v ∧ (1 <= servingSize entry)%Q
       ∧ protein entry
         = round1 (fmul (protein food)
                        (fdiv (Qmax 1 v) (or_num (Some (servingSize food)) 100%Q)))).
Proof.
  split.
  - eexists. split; [reflexivity |]. split_and!; [done..|].
    intros Hd. cbn [protein handleSelectFood FoodSearch.selectedFood
                    FoodSearch.servingSize].
    unfold calculateProtein.
    destruct (truthy (servingSize food)) eqn:Ht.
    + rewrite !or_num_Some_truthy by done.
      rewrite fdiv_same, fmul_one_r, round1_fl; [done |].
      unfold is_double in Hd. rewrite Hd. by apply truthy_ne_0.
    + assert (or_num (Some (servingSize food)) 100%Q = 100%Q) as ->
        by (simpl; by rewrite Ht).
      rewrite fdiv_same, fmul_one_r, round1_fl; [done | by vm_compute].
  - eexists. split; [reflexivity |]. split_and!; [done | done | done | | done].
    cbn [servingSize]. apply Q.le_max_l.
Qed.

Lemma handleAdd_after_select_witness :
  (∃ entry,
     handleAdd (handleSelectFood curated_chicken_breast initial_search_state)
     = Some ("breakfast", entry)
     ∧ protein entry = 31%Q)
  ∧ (∃ entry,
       handleAdd (handleServingChange 15%Q
                    (handleSelectFood curated_chicken_breast initial_search_state))
       = Some ("breakfast", entry)
       ∧ servingSize entry = 15%Q ∧ protein entry = fl 4.6%Q).
Proof.
  destruct (handleAdd_after_select curated_chicken_breast initial_search_state 15%Q)
    as [(e1 & Hadd1 & _ & _ & _ & Hp1) (e2 & Hadd2 & _ & _ & Hs2 & _ & Hp2)].
  split.
  - exists e1. split; [exact Hadd1 |]. rewrite Hp1; vm_compute; reflexivity.
  - exists e2. split; [exact Hadd2 |]. rewrite Hs2, Hp2. vm_compute. split; reflexivity.
Defined.

(** ** The progress values *)

(** X15: for a positive goal, the progress never exceeds 100 and the
    remaining amount is never negative; the goal is reached exactly when
    nothing remains, and exactly when the progress is 100; before that the
    remaining amount is the difference to the goal. *)
Theorem progress_remaining_goal (totalProtein goal : num) :
  (0 < goal)%Q →
  (progress totalProtein goal <= 100)%Q
  ∧ (0 <= remaining totalProtein goal)%Q
  ∧ (isGoalReached totalProtein goal = true ↔ (remaining totalProtein goal == 0)%Q)
  ∧ (isGoalReached totalProtein goal = true ↔ (progress totalProtein goal == 100)%Q)
  ∧ (isGoalReached totalProtein goal = false →
       (remaining totalProtein goal == goal - totalProtein)%Q
       ∧ (progress totalProtein goal == totalProtein / goal * 100)%Q)
  ∧ ((0 <= totalProtein)%Q → (0 <= progress totalProtein goal)%Q).
Proof.
  intros Hgoal. unfold progress, remaining, isGoalReached.
  assert ((goal <= totalProtein)%Q ↔ (100 <= totalProtein / goal * 100)%Q) as Hscale.
  { assert (0 < 100 / goal)%Q as Hk by (apply Qlt_shift_div_l; lra).
    assert ((goal * (100 / goal) == 100)%Q) as Hgk by (field; lra).
    assert ((totalProtein / goal * 100 == totalProtein * (100 / goal))%Q) as ->
      by (field; lra).
    rewrite <- Hgk at 1. apply iff_sym, Qmult_le_r, Hk. }
  rewrite bool_decide_eq_true, bool_decide_eq_false.
  split_and!.
  - apply Q.le_min_r.
  - apply Q.le_max_r.
  - rewrite Q.max_r_iff. split; intros; lra.
  - rewrite Q.min_r_iff. exact Hscale.
  - intros Hnot. split.
    + apply Q.max_l. lra.
    + apply Q.min_l. destruct (Qlt_le_dec (totalProtein / goal * 100) 100) as [?|Hge];
        [lra | by apply Hscale in Hge].
  - intros Htotal. apply Q.min_glb; [| discriminate].
    apply Qmult_le_0_compat; [| discriminate].
    apply Qle_shift_div_l; [done | lra].
Qed.

Lemma progress_remaining_goal_witness :
  (progress 120%Q 150%Q == 80)%Q ∧ (remaining 120%Q 150%Q == 30)%Q
  ∧ isGoalReached 120%Q 150%Q = false.
Proof.
  destruct (progress_remaining_goal 120%Q 150%Q) as (_ & _ & _ & _ & Hbefore & _);
    [reflexivity |].
  destruct (Hbefore eq_refl) as [Hrem Hprog].
  split_and!; [by rewrite Hprog | by rewrite Hrem | reflexivity].
Defined.

(** ** Decimal numerals *)

Section Numerals.








End Numerals.

(** ** The local storage service *)

Section StorageProps.
Import Storage.
Implicit Types (st : localStorage) (table : mealTable) (items : list mealItem)
  (log : dailyLog).

Lemma protein_sum_acc items (a : Q) :
  (fold_left (λ total it, total + or_num (Some (protein (item it))) 0) items a
   == a + protein_sum items)%Q.
Proof.
  unfold protein_sum. revert a. induction items as [|it items IH]; intros a; simpl.
  - ring.
  - rewrite IH, (IH (0 + _)%Q). ring.
Qed.

Lemma protein_sum_app items1 items2 :
  (protein_sum (items1 ++ items2) == protein_sum items1 + protein_sum items2)%Q.
Proof.
  unfold protein_sum at 1. rewrite fold_left_app, protein_sum_acc.
  reflexivity.
Qed.

Lemma protein_sum_singleton (it : mealItem) :
  (protein_sum [it] == protein (item it))%Q.
Proof.
  unfold protein_sum. simpl. destruct (truthy (protein (item it))) eqn:Ht; [ring |].
  assert (protein (item it) == 0)%Q as ->; [| ring].
  destruct (Qeq_dec (protein (item it)) 0) as [?|Hne]; [done |].
  apply truthy_ne_0 in Hne. congruence.
Qed.

Lemma calculateTotalProtein_eq table :
  calculateTotalProtein table = protein_sum (concat (snd <$> table)).
Proof. reflexivity. Qed.

Lemma calculateTotalProtein_cons (key : string) items table :
  (calculateTotalProtein ((key, items) :: table)
   == protein_sum items + calculateTotalProtein table)%Q.
Proof.
  rewrite !calculateTotalProtein_eq, fmap_cons. cbn [concat snd].
  apply protein_sum_app.
Qed.

Lemma calculateTotalProtein_meal_set mealType items table :
  (calculateTotalProtein (meal_set mealType items table)
   + protein_sum (default [] (meal_lookup mealType table))
   == calculateTotalProtein table + protein_sum items)%Q.
Proof.
  induction table as [|[key old] rest IH]; cbn [meal_set meal_lookup].
  - rewrite calculateTotalProtein_cons.
    change (calculateTotalProtein []) with 0%Q.
    change (protein_sum (default [] None)) with 0%Q. ring.
  - case_decide.
    + rewrite !calculateTotalProtein_cons.
      change (default [] (Some old)) with old. ring.
    + rewrite !calculateTotalProtein_cons, <- Qplus_assoc, IH. ring.
Qed.

Lemma meal_lookup_set mealType items table :
  meal_lookup mealType (meal_set mealType items table) = Some items.
Proof.
  induction table as [|[key old] rest IH]; simpl.
  - by rewrite decide_True.
  - case_decide as Hk; simpl; [by rewrite decide_True | by rewrite decide_False].
Qed.

Lemma meal_lookup_set_ne mealType other items table :
  other ≠ mealType →
  meal_lookup other (meal_set mealType items table) = meal_lookup other table.
Proof.
  intros Hne. induction table as [|[key old] rest IH]; simpl.
  - by rewrite decide_False.
  - case_decide as Hk; simpl.
    + subst key. by rewrite !decide_False.
    + case_decide; [done | apply IH].
Qed.

Lemma meal_set_same mealType items table :
  meal_lookup mealType table = Some items → meal_set mealType items table = table.
Proof.
  induction table as [|[key old] rest IH]; simpl; [done |].
  case_decide; [by intros [= ->] | intros ?; by rewrite IH].
Qed.

Lemma meal_set_twice mealType items1 items2 table :
  meal_set mealType items2 (meal_set mealType items1 table)
  = meal_set mealType items2 table.
Proof.
  induction table as [|[key old] rest IH]; simpl.
  - by rewrite decide_True.
  - case_decide; simpl; [by rewrite decide_True | by rewrite decide_False, IH].
Qed.

Lemma getLogByDate_date dateKey st :
  keyed_by_date st → date (getLogByDate dateKey st) = dateKey.
Proof.
  intros Hkeyed. unfold getLogByDate.
  destruct (getAllLogs st !! dateKey) as [log|] eqn:Hlog; [by apply Hkeyed | done].
Qed.

Lemma saveLog_lookup log st :
  writable st = true →
  ∃ st', saveLog log st = (true, st')
         ∧ getAllLogs st' = <[date log := log]> (getAllLogs st)
         ∧ GOAL st' = GOAL st ∧ RECENT_FOODS st' = RECENT_FOODS st
         ∧ writable st' = true.
Proof. intros Hw. unfold saveLog. rewrite Hw. by eexists. Qed.

Lemma getLogByDate_after_save log st st' :
  getAllLogs st' = <[date log := log]> (getAllLogs st) → GOAL st' = GOAL st →
  getLogByDate (date log) st' = log
  ∧ ∀ other, other ≠ date log → getLogByDate other st' = getLogByDate other st.
Proof.
  intros Hlogs Hgoal. unfold getLogByDate, getProteinGoal. rewrite Hlogs, Hgoal. split.
  - by rewrite lookup_insert_eq.
  - intros other Hne. by rewrite lookup_insert_ne.
Qed.

End StorageProps.

Section StorageTheorems.
Import Storage.
Implicit Types (st : localStorage) (table : mealTable) (items : list mealItem)
  (log : dailyLog).



(** X17: on a writable storage whose logs are stored under their own
    dates, [addFoodToMeal] returns the updated log of the day and stores it:
    the food, with the new identifier, is appended to the meal, the other
    meals, the goal and the other days are unchanged, reading the day back
    gives the returned log, and the total grows by the food's protein. *)
Theorem addFoodToMeal_logged (dateKey mealType : string) (food : foodItem)
    (newId now : string) st :
  writable st = true → keyed_by_date st →
  ∃ log st',
    addFoodToMeal dateKey mealType food newId now st = (Some log, st')
    ∧ getLogByDate dateKey st' = log
    ∧ (∀ other, other ≠ dateKey → getLogByDate other st' = getLogByDate other st)
    ∧ date log = dateKey ∧ goal log = goal (getLogByDate dateKey st)
    ∧ meal_lookup mealType (meals log)
      = Some (default [] (meal_lookup mealType (meals (getLogByDate dateKey st)))
              ++ [mkMealItem (with_id food (Some newId)) now])
    ∧ (∀ other, other ≠ mealType →
         meal_lookup other (meals log)
         = meal_lookup other (meals (getLogByDate dateKey st)))
    ∧ (totalProtein log
       == calculateTotalProtein (meals (getLogByDate dateKey st)) + protein food)%Q.
Proof.
  intros Hw Hkeyed. unfold addFoodToMeal.
  set (old := getLogByDate dateKey st).
  assert (date old = dateKey) as Hdate by by apply getLogByDate_date.
  set (table0 := match meal_lookup mealType (meals old) with
                 | Some _ => meals old
                 | None => meal_set mealType [] (meals old)
                 end).
  assert (meal_lookup mealType table0
          = Some (default [] (meal_lookup mealType (meals old)))) as Hl0.
  { unfold table0. destruct (meal_lookup mealType (meals old)) as [items|] eqn:Hl;
      [done | apply meal_lookup_set]. }
  assert (∀ other, other ≠ mealType →
            meal_lookup other table0 = meal_lookup other (meals old)) as Hother0.
  { intros other Hne. unfold table0.
    destruct (meal_lookup mealType (meals old)); [done | by apply meal_lookup_set_ne]. }
  assert (calculateTotalProtein table0 == calculateTotalProtein (meals old))%Q as Htotal0.
  { unfold table0. destruct (meal_lookup mealType (meals old)) as [items|] eqn:Hl;
      [done |].
    pose proof (calculateTotalProtein_meal_set mealType [] (meals old)) as Hset.
    rewrite Hl in Hset. change (protein_sum (default [] None)) with 0%Q in Hset.
    change (protein_sum []) with 0%Q in Hset. lra. }
  assert (default [] (meal_lookup mealType table0)
          = default [] (meal_lookup mealType (meals old))) as -> by by rewrite Hl0.
  set (new := mkMealItem (with_id food (Some newId)) now).
  set (items := default [] (meal_lookup mealType (meals old))) in *.
  set (table1 := meal_set mealType (items ++ [new]) table0).
  set (log := mkLog (date old) (goal old) table1 (calculateTotalProtein table1)).
  destruct (saveLog_lookup log st Hw) as (st' & -> & Hlogs & Hgoal & _).
  destruct (getLogByDate_after_save log st st' Hlogs Hgoal) as [Hread Hframe].
  exists log, st'. simpl in Hread, Hframe. rewrite Hdate in Hread, Hframe.
  split_and!; [done | done | done | done | done | apply meal_lookup_set | | ].
  - intros other Hne. unfold log, table1. simpl.
    by rewrite meal_lookup_set_ne, Hother0.
  - unfold log. simpl.
    pose proof (calculateTotalProtein_meal_set mealType (items ++ [new]) table0) as Hset.
    rewrite Hl0 in Hset. change (default [] (Some items)) with items in Hset.
    fold table1 in Hset.
    rewrite protein_sum_app, protein_sum_singleton in Hset.
    change (protein (item new)) with (protein food) in Hset. lra.
Qed.

Lemma addFoodToMeal_logged_witness :
  ∃ log st',
    addFoodToMeal "2026-01-01" "lunch" tofu_record "u1" "12:00" fresh_storage
    = (Some log, st')
    ∧ getLogByDate "2026-01-01" st' = log
    ∧ (totalProtein log == 8)%Q.
Proof.
  destruct (addFoodToMeal_logged "2026-01-01" "lunch" tofu_record "u1" "12:00"
              fresh_storage eq_refl)
    as (log & st' & Hadd & Hread & _ & _ & _ & _ & _ & Htotal).
  { intros d l Hl. discriminate Hl. }
  exists log, st'. split_and!; [done | done |].
  rewrite Htotal. reflexivity.
Defined.

Lemma keyed_by_date_insert log (logs : gmap string dailyLog) :
  (∀ d l, logs !! d = Some l → date l = d) →
  ∀ d l, <[date log := log]> logs !! d = Some l → date l = d.
Proof.
  intros Hkeyed d l. destruct (decide (date log = d)) as [<- | Hne].
  - rewrite lookup_insert_eq. by intros [= <-].
  - rewrite lookup_insert_ne by done. apply Hkeyed.
Qed.

Lemma saveLog_keyed log st : keyed_by_date st → keyed_by_date (saveLog log st).2.
Proof.
  intros Hkeyed. unfold saveLog. destruct (writable st); [| done].
  unfold keyed_by_date. simpl. by apply keyed_by_date_insert.
Qed.

(** X18: the service keeps every log stored under its own date: the
    property holds for an empty storage and is preserved by adding and
    removing a food, by saving a goal and by remembering a recent food,
    whether or not the write succeeds. *)
Theorem keyed_by_date_preserved st :
  keyed_by_date fresh_storage
  ∧ (keyed_by_date st →
       (∀ dateKey mealType food newId now,
          keyed_by_date (addFoodToMeal dateKey mealType food newId now st).2)
       ∧ (∀ dateKey mealType foodId,
            keyed_by_date (removeFoodFromMeal dateKey mealType foodId st).2)
       ∧ (∀ newGoal, keyed_by_date (setProteinGoal newGoal st).2)
       ∧ (∀ food, keyed_by_date (addRecentFood food st).2)).
Proof.
  split; [intros d l Hl; discriminate Hl |].
  intros Hkeyed. split_and!.
  - intros. unfold addFoodToMeal.
    match goal with |- context [saveLog ?l st] =>
      pose proof (saveLog_keyed l st Hkeyed) as Hs; destruct (saveLog l st) end.
    done.
  - intros. unfold removeFoodFromMeal.
    match goal with |- context [saveLog ?l st] =>
      pose proof (saveLog_keyed l st Hkeyed) as Hs; destruct (saveLog l st) end.
    done.
  - intros. unfold setProteinGoal. by destruct (writable st).
  - intros. unfold addRecentFood. by destruct (writable st).
Qed.

Lemma keyed_by_date_preserved_witness :
  keyed_by_date
    (addFoodToMeal "2026-01-01" "lunch" tofu_record "u1" "12:00" fresh_storage).2.
Proof.
  apply (proj2 (keyed_by_date_preserved fresh_storage)).
  apply (proj1 (keyed_by_date_preserved fresh_storage)).
Defined.

End StorageTheorems.

Section StorageTheoremsMore.
Import Storage.
Implicit Types (st : localStorage) (table : mealTable) (items : list mealItem)
  (log : dailyLog).

Lemma protein_sum_cons (it : mealItem) items :
  (protein_sum (it :: items) == protein (item it) + protein_sum items)%Q.
Proof.
  change (it :: items) with ([it] ++ items).
  by rewrite protein_sum_app, protein_sum_singleton.
Qed.

Lemma protein_sum_split (foodId : string) items :
  (protein_sum items
   == protein_sum (filter (λ it, id (item it) ≠ Some foodId) items)
      + protein_sum (filter (λ it, id (item it) = Some foodId) items))%Q.
Proof.
  induction items as [|it items IH]; [reflexivity |].
  rewrite !filter_cons, protein_sum_cons.
  destruct (decide (id (item it) = Some foodId)) as [Heq | Hne].
  - rewrite decide_False by (intros Hn; by apply Hn).
    rewrite protein_sum_cons, IH. ring.
  - rewrite decide_True by done. rewrite protein_sum_cons, IH. ring.
Qed.

Lemma removeFoodFromMeal_writable (dateKey mealType foodId : string) st :
  writable st = true →
  ∃ log,
    removeFoodFromMeal dateKey mealType foodId st
    = (Some log, mkStorage (Parsed (<[date log := log]> (getAllLogs st)))
                           (GOAL st) (RECENT_FOODS st) (writable st))
    ∧ date log = date (getLogByDate dateKey st)
    ∧ goal log = goal (getLogByDate dateKey st)
    ∧ meals log
      = match meal_lookup mealType (meals (getLogByDate dateKey st)) with
        | Some items =>
            meal_set mealType (filter (λ it, id (item it) ≠ Some foodId) items)
                     (meals (getLogByDate dateKey st))
        | None => meals (getLogByDate dateKey st)
        end
    ∧ totalProtein log = calculateTotalProtein (meals log).
Proof.
  intros Hw. unfold removeFoodFromMeal, saveLog. rewrite Hw. by eexists.
Qed.

Lemma addFoodToMeal_writable (dateKey mealType : string) (food : foodItem)
    (newId now : string) st :
  writable st = true →
  ∃ log,
    addFoodToMeal dateKey mealType food newId now st
    = (Some log, mkStorage (Parsed (<[date log := log]> (getAllLogs st)))
                           (GOAL st) (RECENT_FOODS st) (writable st))
    ∧ date log = date (getLogByDate dateKey st)
    ∧ goal log = goal (getLogByDate dateKey st)
    ∧ (∀ items, meal_lookup mealType (meals (getLogByDate dateKey st)) = Some items →
         meals log
         = meal_set mealType (items ++ [mkMealItem (with_id food (Some newId)) now])
                    (meals (getLogByDate dateKey st))).
Proof.
  intros Hw. unfold addFoodToMeal, saveLog. rewrite Hw. eexists.
  split_and!; [reflexivity | done | done |].
  intros items Hl. simpl. rewrite Hl. simpl. by rewrite Hl.
Qed.

Lemma fresh_storage_keyed : keyed_by_date fresh_storage.
Proof. intros d l Hl. discriminate Hl. Qed.

Lemma addFoodToMeal_keyed (dateKey mealType : string) (food : foodItem)
    (newId now : string) st :
  keyed_by_date st → keyed_by_date (addFoodToMeal dateKey mealType food newId now st).2.
Proof.
  intros Hkeyed. unfold addFoodToMeal.
  match goal with |- context [saveLog ?l st] =>
    pose proof (saveLog_keyed l st Hkeyed) as Hs; destruct (saveLog l st) end.
  done.
Qed.

Lemma getLogByDate_after_save_at (dateKey : string) log st st' :
  date log = dateKey →
  getAllLogs st' = <[date log := log]> (getAllLogs st) → GOAL st' = GOAL st →
  getLogByDate dateKey st' = log
  ∧ ∀ other, other ≠ dateKey → getLogByDate other st' = getLogByDate other st.
Proof. intros <-. apply getLogByDate_after_save. Qed.

Lemma filter_keep_all {A} (P : A → Prop) `{!∀ x, Decision (P x)} (l : list A) (x : A) :
  Forall P l → ¬ P x → filter P (l ++ [x]) = l.
Proof.
  intros Hl Hx. rewrite filter_app, filter_all by done.
  by rewrite filter_cons_False, filter_nil, app_nil_r.
Qed.

(** X19: on a writable storage whose logs are stored under their own
    dates, [removeFoodFromMeal] returns and stores the log of the day
    without the entries of the meal that carry the identifier: the other
    entries, meals and days are unchanged, the stored total is the
    recalculated one, it plus the protein of the removed entries is the
    former sum, and removing an identifier the meal does not hold leaves the
    meals as they were. *)
Theorem removeFoodFromMeal_removed (dateKey mealType foodId : string) st :
  writable st = true → keyed_by_date st →
  ∃ log st',
    removeFoodFromMeal dateKey mealType foodId st = (Some log, st')
    ∧ getLogByDate dateKey st' = log
    ∧ (∀ other, other ≠ dateKey → getLogByDate other st' = getLogByDate other st)
    ∧ meal_lookup mealType (meals log)
      = filter (λ it, id (item it) ≠ Some foodId)
          <$> meal_lookup mealType (meals (getLogByDate dateKey st))
    ∧ (∀ other, other ≠ mealType →
         meal_lookup other (meals log)
         = meal_lookup other (meals (getLogByDate dateKey st)))
    ∧ totalProtein log = calculateTotalProtein (meals log)
    ∧ (totalProtein log
       + protein_sum (filter (λ it, id (item it) = Some foodId)
                        (default [] (meal_lookup mealType
                                       (meals (getLogByDate dateKey st)))))
       == calculateTotalProtein (meals (getLogByDate dateKey st)))%Q
    ∧ (Forall (λ it, id (item it) ≠ Some foodId)
              (default [] (meal_lookup mealType (meals (getLogByDate dateKey st)))) →
       meals log = meals (getLogByDate dateKey st)).
Proof.
  intros Hw Hkeyed.
  destruct (removeFoodFromMeal_writable dateKey mealType foodId st Hw)
    as (log & -> & Hdate & Hgoal & Hmeals & Htotal).
  set (old := getLogByDate dateKey st) in *.
  assert (date log = dateKey) as Hd
    by (rewrite Hdate; by apply getLogByDate_date).
  eexists log, _. split; [reflexivity |].
  destruct (getLogByDate_after_save_at dateKey log st
              (mkStorage (Parsed (<[date log := log]> (getAllLogs st)))
                         (GOAL st) (RECENT_FOODS st) (writable st)) Hd eq_refl eq_refl)
    as [Hread Hframe].
  split_and!; [done | done | | | done | |].
  - rewrite Hmeals. destruct (meal_lookup mealType (meals old)) as [items|] eqn:Hl.
    + apply meal_lookup_set.
    + by rewrite Hl.
  - intros other Hne. rewrite Hmeals.
    destruct (meal_lookup mealType (meals old)); [by apply meal_lookup_set_ne | done].
  - rewrite Htotal, Hmeals.
    destruct (meal_lookup mealType (meals old)) as [items|] eqn:Hl.
    + pose proof (calculateTotalProtein_meal_set mealType
                    (filter (λ it, id (item it) ≠ Some foodId) items) (meals old)) as Hset.
      rewrite Hl in Hset. change (default [] (Some items)) with items in *.
      pose proof (protein_sum_split foodId items). lra.
    + change (default [] None) with (@nil mealItem). rewrite filter_nil.
      change (protein_sum []) with 0%Q. ring.
  - intros Hnone. rewrite Hmeals.
    destruct (meal_lookup mealType (meals old)) as [items|] eqn:Hl; [| done].
    change (default [] (Some items)) with items in Hnone.
    rewrite filter_all by done. by apply meal_set_same.
Qed.

Lemma removeFoodFromMeal_removed_witness :
  ∃ log st',
    removeFoodFromMeal "2026-01-01" "lunch" "u1"
      (addFoodToMeal "2026-01-01" "lunch" tofu_record "u1" "12:00" fresh_storage).2
    = (Some log, st')
    ∧ meal_lookup "lunch" (meals log) = Some [].
Proof.
  destruct (removeFoodFromMeal_removed "2026-01-01" "lunch" "u1"
              (addFoodToMeal "2026-01-01" "lunch" tofu_record "u1" "12:00"
                             fresh_storage).2 eq_refl)
    as (log & st' & Hrem & _ & _ & Hlookup & _).
  { apply addFoodToMeal_keyed, fresh_storage_keyed. }
  exists log, st'. split; [exact Hrem |]. rewrite Hlookup. reflexivity.
Defined.

(** X20: adding a food to a meal of the day and then removing it by the
    identifier it was given restores the meals of the day, with the total
    recalculated from them, provided the meal exists and none of its entries
    already carries that identifier. *)
Theorem removeFoodFromMeal_after_add (dateKey mealType : string) (food : foodItem)
    (newId now : string) st items :
  writable st = true → keyed_by_date st →
  meal_lookup mealType (meals (getLogByDate dateKey st)) = Some items →
  Forall (λ it, id (item it) ≠ Some newId) items →
  ∃ log st'',
    removeFoodFromMeal dateKey mealType newId
      (addFoodToMeal dateKey mealType food newId now st).2 = (Some log, st'')
    ∧ date log = dateKey
    ∧ goal log = goal (getLogByDate dateKey st)
    ∧ meals log = meals (getLogByDate dateKey st)
    ∧ totalProtein log = calculateTotalProtein (meals (getLogByDate dateKey st))
    ∧ getLogByDate dateKey st'' = log.
Proof.
  intros Hw Hkeyed Hl Hfresh.
  pose proof (getLogByDate_date dateKey st Hkeyed) as Hd0.
  destruct (addFoodToMeal_writable dateKey mealType food newId now st Hw)
    as (log1 & -> & Hdate1 & Hgoal1 & Hmeals1).
  specialize (Hmeals1 items Hl). cbn [snd].
  set (st1 := mkStorage (Parsed (<[date log1 := log1]> (getAllLogs st)))
                        (GOAL st) (RECENT_FOODS st) (writable st)).
  destruct (getLogByDate_after_save log1 st st1 eq_refl eq_refl) as [Hread1 _].
  rewrite Hdate1, Hd0 in Hread1.
  destruct (removeFoodFromMeal_writable dateKey mealType newId st1 Hw)
    as (log2 & -> & Hdate2 & Hgoal2 & Hmeals2 & Htotal2).
  rewrite Hread1 in Hdate2, Hgoal2, Hmeals2.
  rewrite Hmeals1, meal_lookup_set, meal_set_twice in Hmeals2.
  rewrite filter_keep_all in Hmeals2; [| done | by intros Hn; apply Hn].
  rewrite meal_set_same in Hmeals2 by done.
  assert (date log2 = dateKey) as Hd2 by congruence.
  eexists log2, _. split; [reflexivity |].
  split_and!; [done | congruence | done | congruence |].
  eapply (getLogByDate_after_save_at dateKey log2 st1); [exact Hd2 | done | done].
Qed.

Lemma removeFoodFromMeal_after_add_witness :
  ∃ log st'',
    removeFoodFromMeal "2026-01-01" "lunch" "u1"
      (addFoodToMeal "2026-01-01" "lunch" tofu_record "u1" "12:00" fresh_storage).2
    = (Some log, st'')
    ∧ meals log = empty_meals.
Proof.
  destruct (removeFoodFromMeal_after_add "2026-01-01" "lunch" tofu_record "u1" "12:00"
              fresh_storage [] eq_refl)
    as (log & st'' & Hrem & _ & _ & Hmeals & _).
  - intros d l Hl. discriminate Hl.
  - reflexivity.
  - constructor.
  - exists log, st''. split; [exact Hrem | exact Hmeals].
Defined.



End StorageTheoremsMore.

(** ** The model singleton *)

Section ModelCacheProps.
Import ModelCache.
Implicit Types (st : ModelCache.state) (m : classifier).

Lemma step_shape st st' : cache_shape st → step st st' → cache_shape st'.
Proof.
  intros Hshape Hstep. destruct Hstep as [st | st promise settled Hin].
  - destruct Hshape as [(Hm & Hl & Hp & Hw) | [(p & Hm & Hl & Hp & Hw & Hlt) | (m & Hm & Hw)]];
      unfold call_loadModel; rewrite Hm.
    + rewrite Hl. simpl. right; left. exists (started st).
      unfold in_flight. simpl. rewrite Hw. split_and!; [done..| lia].
    + rewrite Hl, Hp. simpl. right; left. exists p. by unfold in_flight.
    + simpl. right; right. by exists m.
  - destruct Hshape as [(Hm & Hl & Hp & Hw) | [(p & Hm & Hl & Hp & Hw & Hlt) | (m & Hm & Hw)]].
    + rewrite Hw in Hin. by apply elem_of_nil in Hin.
    + rewrite Hw in Hin. apply list_elem_of_singleton in Hin as ->.
      destruct settled as [m | e]; simpl.
      * right; right. exists m. unfold loaded. simpl. rewrite Hw.
        split; [done |]. rewrite filter_cons_False by (intros Hn; by apply Hn). done.
      * left. unfold idle. simpl. rewrite Hw.
        split_and!; [done..|]. rewrite filter_cons_False by (intros Hn; by apply Hn). done.
    + rewrite Hw in Hin. by apply elem_of_nil in Hin.
Qed.

Lemma reachable_shape st : reachable st → cache_shape st.
Proof.
  unfold reachable. revert st.
  apply (@rtc_ind_r _ step cache_shape initial).
  - left. by unfold idle.
  - intros st1 st2 _ Hstep Hshape. by eapply step_shape.
Qed.

Lemma loaded_step m st st' :
  loaded m st → step st st' → loaded m st' ∧ started st' = started st.
Proof.
  intros [Hm Hw] Hstep. destruct Hstep as [st | st promise settled Hin].
  - unfold call_loadModel. rewrite Hm. by simpl.
  - rewrite Hw in Hin. by apply elem_of_nil in Hin.
Qed.

End ModelCacheProps.

(** X22: the model is loaded by one load at a time.  In every reachable
    state of the singleton at most one load is pending; a call of
    [loadModel] made while a load is pending joins that load and starts
    none; after a failed load the singleton is idle again, and the next call
    starts a new load under a new promise. *)
Theorem loadModel_single_flight (st : ModelCache.state) :
  ModelCache.reachable st →
  (length (ModelCache.awaiting st) ≤ 1)%nat
  ∧ (∀ promise, promise ∈ ModelCache.awaiting st →
       ModelCache.call_loadModel st = (ModelCache.Joined promise, st)
       ∧ (∀ e, let st' := ModelCache.resume promise (Throw e) st in
               ModelCache.idle st'
               ∧ ModelCache.call_loadModel st'
                 = (ModelCache.Started (ModelCache.started st),
                    ModelCache.mkState None true (Some (ModelCache.started st))
                      (S (ModelCache.started st)) [ModelCache.started st])
               ∧ promise ≠ ModelCache.started st)).
Proof.
  intros Hreach.
  destruct (reachable_shape st Hreach)
    as [(Hm & Hl & Hp & Hw) | [(p & Hm & Hl & Hp & Hw & Hlt) | (m & Hm & Hw)]].
  - rewrite Hw. split; [simpl; lia |]. by intros promise ?%elem_of_nil.
  - rewrite Hw. split; [simpl; lia |].
    intros promise ->%list_elem_of_singleton. split.
    + unfold ModelCache.call_loadModel. by rewrite Hm, Hl, Hp.
    + intros e st'. unfold st', ModelCache.resume, ModelCache.idle,
        ModelCache.call_loadModel. simpl.
      rewrite Hm, Hw, filter_cons_False by (intros Hn; by apply Hn).
      rewrite filter_nil. split_and!; [done.. | lia].
  - rewrite Hw. split; [simpl; lia |]. by intros promise ?%elem_of_nil.
Qed.

Lemma loadModel_single_flight_witness :
  ModelCache.call_loadModel (ModelCache.call_loadModel ModelCache.initial).2
  = (ModelCache.Joined 0%nat, (ModelCache.call_loadModel ModelCache.initial).2).
Proof.
  apply (proj2 (loadModel_single_flight (ModelCache.call_loadModel ModelCache.initial).2
                  (rtc_once _ _ (ModelCache.step_call ModelCache.initial)))).
  by left.
Defined.

(** X23: a loaded model stays loaded.  Once the singleton holds a model,
    every later state holds the same model, no further load is started, a
    call of [loadModel] returns the model at once, and [getModelStatus]
    reports it as loaded. *)
Theorem loadModel_cached (st st' : ModelCache.state) (m : classifier) :
  ModelCache.reachable st → ModelCache.model st = Some m →
  rtc ModelCache.step st st' →
  ModelCache.model st' = Some m
  ∧ ModelCache.started st' = ModelCache.started st
  ∧ ModelCache.call_loadModel st' = (ModelCache.Cached m, st')
  ∧ (ModelCache.getModelStatus st').1 = true.
Proof.
  intros Hreach Hm Hsteps.
  assert (ModelCache.loaded m st) as Hloaded.
  { destruct (reachable_shape st Hreach)
      as [(Hm' & _) | [(p & Hm' & _) | (m' & Hm' & Hw)]]; [congruence | congruence |].
    split; [done | done]. }
  assert (ModelCache.loaded m st' ∧ ModelCache.started st' = ModelCache.started st)
    as [[Hm' Hw'] Hstarted].
  { induction Hsteps as [st | st1 st2 st3 Hstep _ IH]; [done |].
    destruct (loaded_step m st1 st2 Hloaded Hstep) as [Hl2 Hs2].
    destruct IH as [Hl3 Hs3].
    - eapply rtc_r; [exact Hreach | exact Hstep].
    - by destruct Hl2.
    - exact Hl2.
    - split; [done | congruence]. }
  split_and!; [done | done | |].
  - unfold ModelCache.call_loadModel. by rewrite Hm'.
  - unfold ModelCache.getModelStatus. simpl. rewrite Hm'. by apply bool_decide_eq_true.
Qed.

Lemma loadModel_cached_witness :
  let loaded :=
    ModelCache.resume 0 (Ok four_label_model)
                      (ModelCache.call_loadModel ModelCache.initial).2 in
  ModelCache.call_loadModel loaded = (ModelCache.Cached four_label_model, loaded).
Proof.
  intros loaded.
  assert (ModelCache.reachable loaded) as Hreach.
  { eapply rtc_l; [apply ModelCache.step_call |].
    apply rtc_once. apply ModelCache.step_resume. by left. }
  by destruct (loadModel_cached loaded loaded four_label_model Hreach eq_refl
                 (rtc_refl _ _)) as (_ & _ & Hcall & _).
Defined.

Section AddFood.
Import Storage.

(** X25: [addFood] of the food-log hook reports success exactly when the
    storage is writable; it then stores the log that [addFoodToMeal] returns
    and puts the food first among the recent foods; when the storage is not
    writable nothing is stored. *)
Theorem addFood_logs_and_remembers (dateKey mealType : string) (food : foodItem)
    (newId now : string) (st : localStorage) :
  (writable st = true →
     ∃ log st1 st2,
       addFoodToMeal dateKey mealType food newId now st = (Some log, st1)
       ∧ addFood dateKey mealType food newId now st = (true, st2)
       ∧ getAllLogs st2 = <[date log := log]> (getAllLogs st)
       ∧ head (getRecentFoods st2) = Some (recentOf food)
       ∧ GOAL st2 = GOAL st)
  ∧ (writable st = false →
       addFood dateKey mealType food newId now st = (false, st)).
Proof.
  split; intros Hw.
  - destruct (addFoodToMeal_writable dateKey mealType food newId now st Hw)
      as (log & Hadd & _).
    unfold addFood. rewrite Hadd. eexists log, _, _.
    split; [reflexivity |]. split; [reflexivity |].
    unfold addRecentFood. simpl. by rewrite Hw.
  - unfold addFood, addFoodToMeal, saveLog. by rewrite Hw.
Qed.

Lemma addFood_logs_and_remembers_witness :
  ∃ st2, addFood "2026-01-01" "lunch" tofu_record "u1" "12:00" fresh_storage = (true, st2)
         ∧ head (getRecentFoods st2) = Some (recentOf tofu_record).
Proof.
  destruct (proj1 (addFood_logs_and_remembers "2026-01-01" "lunch" tofu_record "u1"
                     "12:00" fresh_storage) eq_refl)
    as (log & st1 & st2 & _ & Hadd & _ & Hhead & _).
  by exists st2.
Defined.

End AddFood.
